(** * goauth2: the Google IdP adapter, the server construction and the state store

    A shallow embedding of [googleidp.go], [server/server.go] and
    [server/state.go].  Go strings are byte strings ([string]), [[]byte] is
    [list byte], Go maps with string keys are [gmap string _] (or ordered
    association lists where the code sorts the keys), fallible calls return
    [result], and a Go panic is an explicit outcome. *)

From Stdlib Require Import ZArith NArith Ascii String List Lia Bool.
From Stdlib.Strings Require Import Byte.
From stdpp Require Import base option gmap strings list.

Local Open Scope string_scope.

(** ** Errors and outcomes *)

(** Go [error] values that the modelled code creates or passes on. *)
Inductive error : Type :=
  | errorString (msg : string)        (* errors.New / fmt.Errorf *)
  | EscapeError (s : string)          (* net/url *)
  | CorruptInputError (at_ : nat)     (* encoding/base64 *)
  | externalError (msg : string).     (* raised by a collaborator: network, JSON, KV engine *)

Inductive result (A : Type) : Type :=
  | Ok (a : A)
  | Err (e : error).
Arguments Ok {A} a.
Arguments Err {A} e.

(** A call either returns or panics (index out of range, nil dereference). *)
Inductive outcome (A : Type) : Type :=
  | Returns (a : A)
  | Panics (why : string).
Arguments Returns {A} a.
Arguments Panics {A} why.

(** ** Package strings *)

(** [strings.Cut(s, sep)] for a one-byte separator. *)
Fixpoint strings_Cut (s : string) (sep : ascii) : string * string * bool :=
  match s with
  | EmptyString => (EmptyString, EmptyString, false)
  | String c s' =>
      if Ascii.eqb c sep then (EmptyString, s', true)
      else let '(before, after, found) := strings_Cut s' sep in
           (String c before, after, found)
  end.

(** [strings.Contains(s, sep)] for a one-byte [sep]. *)
Fixpoint strings_ContainsByte (s : string) (sep : ascii) : bool :=
  match s with
  | EmptyString => false
  | String c s' => Ascii.eqb c sep || strings_ContainsByte s' sep
  end.

(** [strings.Split(s, sep)] for a one-byte separator: always at least one
    segment, one more than the number of separators. *)
Fixpoint strings_Split (s : string) (sep : ascii) : list string :=
  match s with
  | EmptyString => [EmptyString]
  | String c s' =>
      if Ascii.eqb c sep then EmptyString :: strings_Split s' sep
      else match strings_Split s' sep with
           | [] => [String c EmptyString]
           | p :: ps => String c p :: ps
           end
  end.

(** [strings.Contains(s, substr)]. *)
Fixpoint strings_Contains (s substr : string) : bool :=
  String.prefix substr s ||
  match s with
  | EmptyString => false
  | String _ s' => strings_Contains s' substr
  end.

(** ** Package net/url: query escaping *)

Definition byte_in (lo hi c : ascii) : bool :=
  (N_of_ascii lo <=? N_of_ascii c)%N && (N_of_ascii c <=? N_of_ascii hi)%N.

(** [shouldEscape(c, encodeQueryComponent)]: everything but the unreserved
    characters is escaped. *)
Definition shouldEscape (c : ascii) : bool :=
  if byte_in "a" "z" c || byte_in "A" "Z" c || byte_in "0" "9" c then false
  else if Ascii.eqb c "-" || Ascii.eqb c "_" || Ascii.eqb c "." || Ascii.eqb c "~"
  then false
  else true.

Definition upperhex (n : N) : ascii :=
  match n with
  | 0 => "0" | 1 => "1" | 2 => "2" | 3 => "3" | 4 => "4" | 5 => "5"
  | 6 => "6" | 7 => "7" | 8 => "8" | 9 => "9" | 10 => "A" | 11 => "B"
  | 12 => "C" | 13 => "D" | 14 => "E" | _ => "F"
  end%N%char.

Definition ishex (c : ascii) : bool :=
  byte_in "0" "9" c || byte_in "a" "f" c || byte_in "A" "F" c.

Definition unhex (c : ascii) : N :=
  if byte_in "0" "9" c then N_of_ascii c - N_of_ascii "0"
  else if byte_in "a" "f" c then N_of_ascii c - N_of_ascii "a" + 10
  else if byte_in "A" "F" c then N_of_ascii c - N_of_ascii "A" + 10
  else 0.

(** [url.QueryEscape]: a space becomes [+], an escaped byte becomes [%XX]. *)
Fixpoint QueryEscape (s : string) : string :=
  match s with
  | EmptyString => EmptyString
  | String c s' =>
      if shouldEscape c then
        if Ascii.eqb c " " then String "+" (QueryEscape s')
        else String "%" (String (upperhex (N_of_ascii c / 16))
                        (String (upperhex (N_of_ascii c mod 16)) (QueryEscape s')))
      else String c (QueryEscape s')
  end.

(** [url.QueryUnescape]: fails with [EscapeError] on the leftmost [%] that is
    not followed by two hex digits. *)
Fixpoint QueryUnescape (s : string) : result string :=
  match s with
  | EmptyString => Ok EmptyString
  | String "%" (String h1 (String h2 rest)) =>
      if ishex h1 && ishex h2 then
        match QueryUnescape rest with
        | Ok r => Ok (String (ascii_of_N (16 * unhex h1 + unhex h2)) r)
        | Err e => Err e
        end
      else Err (EscapeError (String "%" (String h1 (String h2 EmptyString))))
  | String "%" rest => Err (EscapeError (String "%" rest))
  | String "+" rest =>
      match QueryUnescape rest with
      | Ok r => Ok (String " " r)
      | Err e => Err e
      end
  | String c rest =>
      match QueryUnescape rest with
      | Ok r => Ok (String c r)
      | Err e => Err e
      end
  end.

(** ** Package net/url: Values *)

(** [url.Values] is [map[string][]string].  [Encode] walks the keys in sorted
    order, so the map is kept as an association list with unique keys. *)
Definition Values : Type := list (string * list string).

Fixpoint Values_index (v : Values) (key : string) : option (list string) :=
  match v with
  | [] => None
  | (k, vs) :: v' => if String.eqb k key then Some vs else Values_index v' key
  end.

(** [v[key] = vs] *)
Fixpoint Values_assign (v : Values) (key : string) (vs : list string) : Values :=
  match v with
  | [] => [(key, vs)]
  | (k, vs') :: v' =>
      if String.eqb k key then (k, vs) :: v'
      else (k, vs') :: Values_assign v' key vs
  end.

(** [Values.Get]: the first value of the key, or the empty string. *)
Definition Values_Get (v : Values) (key : string) : string :=
  match Values_index v key with
  | Some (x :: _) => x
  | _ => EmptyString
  end.

(** [Values.Set]: replaces whatever the key held. *)
Definition Values_Set (v : Values) (key value : string) : Values :=
  Values_assign v key [value].

(** [m[key] = append(m[key], value)] *)
Definition Values_append (v : Values) (key value : string) : Values :=
  match Values_index v key with
  | Some vs => Values_assign v key (vs ++ [value])%list
  | None => Values_assign v key [value]
  end.

(** Byte-wise order of Go strings, as [sort.Strings] uses it. *)
Fixpoint string_ltb (a b : string) : bool :=
  match a, b with
  | EmptyString, EmptyString => false
  | EmptyString, String _ _ => true
  | String _ _, EmptyString => false
  | String x a', String y b' =>
      if (N_of_ascii x <? N_of_ascii y)%N then true
      else if (N_of_ascii y <? N_of_ascii x)%N then false
      else string_ltb a' b'
  end.

Fixpoint insert_sorted (k : string) (ks : list string) : list string :=
  match ks with
  | [] => [k]
  | k' :: ks' => if string_ltb k' k then k' :: insert_sorted k ks' else k :: ks
  end.

Definition sort_Strings (ks : list string) : list string :=
  foldr insert_sorted [] ks.

(** The [key=value] pairs of one key, each preceded by [&] unless the buffer
    is still empty. *)
Fixpoint Encode_values (buf keyEscaped : string) (vs : list string) : string :=
  match vs with
  | [] => buf
  | v :: vs' =>
      let buf1 := if (String.length buf =? 0)%nat then buf else buf ++ "&" in
      Encode_values (buf1 ++ keyEscaped ++ "=" ++ QueryEscape v) keyEscaped vs'
  end.

Fixpoint Encode_keys (buf : string) (v : Values) (keys : list string) : string :=
  match keys with
  | [] => buf
  | k :: keys' =>
      let vs := default [] (Values_index v k) in
      Encode_keys (Encode_values buf (QueryEscape k) vs) v keys'
  end.

(** [Values.Encode]: [k1=v1&k2=v2...] sorted by key. *)
Definition Values_Encode (v : Values) : string :=
  Encode_keys EmptyString v (sort_Strings (map fst v)).

(** One iteration of the loop of [parseQuery] per [&]-separated piece (as of
    Go 1.17: a piece with a semicolon is dropped and reported); what is left
    after the cut is shorter, so [fuel] above the length of the query is
    never exhausted. *)
Fixpoint parseQuery (fuel : nat) (m : Values) (err : option error) (query : string)
  : Values * option error :=
  match fuel with
  | O => (m, err)
  | S fuel' =>
      match query with
      | EmptyString => (m, err)
      | _ =>
          let '(key, query', _) := strings_Cut query "&" in
          if strings_ContainsByte key ";" then
            parseQuery fuel' m
              (Some (errorString "invalid semicolon separator in query")) query'
          else if String.eqb key EmptyString then parseQuery fuel' m err query'
          else
            let '(key, value, _) := strings_Cut key "=" in
            match QueryUnescape key with
            | Err err1 =>
                parseQuery fuel' m (if err is Some _ then err else Some err1) query'
            | Ok key1 =>
                match QueryUnescape value with
                | Err err1 =>
                    parseQuery fuel' m (if err is Some _ then err else Some err1) query'
                | Ok value1 =>
                    parseQuery fuel' (Values_append m key1 value1) err query'
                end
            end
      end
  end.

(** [url.ParseQuery] *)
Definition ParseQuery (query : string) : Values * option error :=
  parseQuery (S (String.length query)) [] None query.

(** [ParseQuery] continued from a map and an error collected so far. *)
Definition parse_from (m : Values) (err : option error) (query : string)
  : Values * option error :=
  parseQuery (S (String.length query)) m err query.

(** Every key that is present holds at least one value. *)
Definition Values_filled (v : Values) : Prop :=
  forall k vs, Values_index v k = Some vs -> vs <> [].

(** A map as [url.Values] holds it: no key twice, no key without a value. *)
Definition Values_wf (v : Values) : Prop := NoDup (map fst v) /\ Values_filled v.

(** One [key=value] piece of an encoded query. *)
Definition piece (p : string * string) : string :=
  QueryEscape p.1 ++ String "=" (QueryEscape p.2).

(** The pairs that [Encode] writes for the keys, in their order. *)
Definition pairs_of (v : Values) (keys : list string) : list (string * string) :=
  concat (map (fun k => map (pair k) (default [] (Values_index v k))) keys).

(** What [Encode] does to its buffer for one pair. *)
Definition write_piece (buf : string) (p : string * string) : string :=
  (if (String.length buf =? 0)%nat then buf else buf ++ "&") ++ piece p.

(** The pieces after the first, each behind its [&]. *)
Fixpoint more_pieces (ps : list (string * string)) : string :=
  match ps with
  | [] => ""
  | p :: ps' => String "&" (piece p ++ more_pieces ps')
  end.

(** What [parseQuery] does to its map for one pair. *)
Definition add_pair (m : Values) (p : string * string) : Values :=
  Values_append m p.1 p.2.

(** The values that a list of pairs holds for a key, in their order. *)
Definition values_of (k : string) (ps : list (string * string)) : list string :=
  map snd (filter (fun p => p.1 = k) ps).

(** The fields of [url.URL] that the modelled code reads or writes. *)
Record URL : Type := mkURL {
  Scheme : string;
  Host : string;
  Path : string;
  RawQuery : string
}.

(** [url.URL{}] *)
Definition URL_zero : URL := mkURL "" "" "" "".

(** [URL.Query]: parses [RawQuery] and drops the error. *)
Definition URL_Query (u : URL) : Values := fst (ParseQuery (RawQuery u)).

(** Package net/url functions that the model takes from the library:
    [url.Parse], the method [URL.String] and the method [URL.Parse] (parse a
    reference and resolve it against the receiver). *)
Class net_url : Type := {
  url_Parse : string -> result URL;
  URL_String : URL -> string;
  URL_Parse : URL -> string -> result URL
}.

(** ** Package encoding/base64: [RawURLEncoding.DecodeString] *)

(** [decodeMap] of the URL alphabet: [A-Z a-z 0-9 - _]. *)
Definition decodeMap (c : ascii) : option N :=
  if byte_in "A" "Z" c then Some (N_of_ascii c - 65)%N
  else if byte_in "a" "z" c then Some (N_of_ascii c - 97 + 26)%N
  else if byte_in "0" "9" c then Some (N_of_ascii c - 48 + 52)%N
  else if Ascii.eqb c "-" then Some 62%N
  else if Ascii.eqb c "_" then Some 63%N
  else None.

(** The byte that is the low eight bits of a number. *)
Definition byte_N (n : N) : byte := default x00 (Byte.of_N (n mod 256)).

(** The bytes of a quantum of [dlen] six-bit values (2, 3 or 4 of them); the
    encoding is not strict, so left-over bits are dropped. *)
Definition quantum_bytes (dbuf : list N) : list byte :=
  match dbuf with
  | [a; b] =>
      let val := (a * 262144 + b * 4096)%N in [byte_N (val / 65536)]
  | [a; b; c] =>
      let val := (a * 262144 + b * 4096 + c * 64)%N in
      [byte_N (val / 65536); byte_N (val / 256)]
  | [a; b; c; d] =>
      let val := (a * 262144 + b * 4096 + c * 64 + d)%N in
      [byte_N (val / 65536); byte_N (val / 256); byte_N val]
  | _ => []
  end.

(** The decoding loop: [si] is the index of the next input byte, [dbuf] the
    six-bit values of the quantum read so far.  Line breaks are skipped, any
    other byte outside the alphabet (the padding character too) is corrupt
    input, and so is a final quantum of a single character. *)
Fixpoint base64_decode (src : string) (si : nat) (dbuf : list N) : result (list byte) :=
  match src with
  | EmptyString =>
      match dbuf with
      | [] => Ok []
      | [_] => Err (CorruptInputError (si - 1))
      | _ => Ok (quantum_bytes dbuf)
      end
  | String c src' =>
      match decodeMap c with
      | Some out =>
          if (List.length dbuf =? 3)%nat then
            match base64_decode src' (S si) [] with
            | Ok rest => Ok (quantum_bytes (dbuf ++ [out]) ++ rest)%list
            | Err e => Err e
            end
          else base64_decode src' (S si) (dbuf ++ [out])%list
      | None =>
          if Ascii.eqb c "010" || Ascii.eqb c "013" then base64_decode src' (S si) dbuf
          else Err (CorruptInputError si)
      end
  end.

Definition RawURLEncoding_DecodeString (s : string) : result (list byte) :=
  base64_decode s 0 [].

(** ** googleidp.go *)

Definition googleAuthURL : string := "https://accounts.google.com/o/oauth2/v2/auth".
Definition googleTokenURL : string := "https://www.googleapis.com/oauth2/v4/token".
Definition googleAuthScope : string := "openid email".
Definition googleResponseType : string := "code".
Definition googleGrantType : string := "authorization_code".

Record googleIDPResponseData : Type := mkGoogleIDPResponseData {
  AccessToken : string;
  TokenType : string;
  ExpiresIn : Z;
  IDToken : string
}.

Record googleIDToken : Type := mkGoogleIDToken {
  Issuer : string;
  AccessTokenHash : string;
  EmailIsVerified : bool;
  Subject : string;
  AuthorizedPresenter : string;
  Email : string;
  ProfileURL : string;
  PictureURL : string;
  Name : string;
  Audience : string;
  IssuedAt : Z;
  ExpiryTime : Z;
  Nonce : string
}.

(** [json.Unmarshal(data, &v)] into a zero value of the two target types. *)
Class encoding_json : Type := {
  Unmarshal_googleIDPResponseData : list byte -> result googleIDPResponseData;
  Unmarshal_googleIDToken : list byte -> result googleIDToken
}.

(** What the adapter sees of an [*http.Response]. *)
Record Response : Type := mkResponse {
  StatusCode : Z;
  Body : list byte
}.

(** [*http.Client]: the answer of the network to a form post. *)
Record http_Client : Type := mkClient {
  PostForm : string -> Values -> result Response
}.

(** What the adapter reads of an [*http.Request]. *)
Record Request : Type := mkRequest {
  Request_URL : URL
}.

(** [oauth2.User] *)
Record User : Type := mkUser {
  UID : string;
  Data : list string
}.

Record googleIDP : Type := mkGoogleIDP {
  clientID : string;
  clientSecret : string;
  client : http_Client
}.

(** [googleIDP.ID] *)
Definition googleIDP_ID (g : googleIDP) : string := "google-oic".

Section GoogleIDP.
Context `{net_url} `{encoding_json}.

(** [googleIDP.AuthnRedirect] *)
Definition AuthnRedirect (g : googleIDP) (callbackURL : URL) (authzRef : string)
  : result URL :=
  (* Build state *)
  let data := [] : Values in
  let data := Values_Set data "ref" authzRef in
  let data := Values_Set data "redirect_uri" (URL_String callbackURL) in
  (* Build URL *)
  match url_Parse googleAuthURL with
  | Err err => Err err
  | Ok authURL =>
      let authQuery := URL_Query authURL in
      let authQuery := Values_Set authQuery "client_id" (clientID g) in
      let authQuery := Values_Set authQuery "response_type" "code" in
      let authQuery := Values_Set authQuery "scope" "openid email" in
      let authQuery := Values_Set authQuery "redirect_uri" (URL_String callbackURL) in
      let authQuery := Values_Set authQuery "state" (Values_Encode data) in
      Ok (mkURL (Scheme authURL) (Host authURL) (Path authURL)
                (Values_Encode authQuery))
  end.

(** [googleIDP.AuthnCallback]: the recovered reference, the user or none,
    and the error or nil. *)
Definition AuthnCallback (g : googleIDP) (r : Request)
  : outcome (string * option User * option error) :=
  (* Parse request *)
  let q := URL_Query (Request_URL r) in
  match Values_index q "state" with
  | None => Returns ("", None, None)
  | Some [] => Panics "index out of range [0] with length 0"
  | Some (state0 :: _) =>
  match ParseQuery state0 with
  | (_, Some _) => Returns ("", None, None)
  | (stateData, None) =>
  match Values_index q "code" with
  | None => Returns (Values_Get stateData "ref", None, None)
  | Some [] => Panics "index out of range [0] with length 0"
  | Some (authzCode0 :: _) =>
  (* Build request parameters *)
  let data := [] : Values in
  let data := Values_Set data "code" authzCode0 in
  let data := Values_Set data "client_id" (clientID g) in
  let data := Values_Set data "client_secret" (clientSecret g) in
  let data := Values_Set data "redirect_uri" (Values_Get stateData "redirect_uri") in
  let data := Values_Set data "grant_type" googleGrantType in
  (* Get token *)
  match PostForm (client g) googleTokenURL data with
  | Err err => Returns ("", None, Some err)
  | Ok resp =>
  (* Parse response *)
  if negb (StatusCode resp =? 200)%Z then
    Returns (Values_Get stateData "ref", None, None)
  else
  match Unmarshal_googleIDPResponseData (Body resp) with
  | Err _ => Returns (Values_Get stateData "ref", None, None)
  | Ok authData =>
  (* split the id token *)
  let parts := strings_Split (IDToken authData) "." in
  if negb (List.length parts =? 3)%nat then
    Returns (Values_Get stateData "ref", None, None)
  else
  match parts !! 1%nat with
  | None => Panics "index out of range [1]"
  | Some b64IDToken =>
  (* decode the payload *)
  match RawURLEncoding_DecodeString b64IDToken with
  | Err _ => Returns (Values_Get stateData "ref", None, None)
  | Ok rawIDToken =>
  match Unmarshal_googleIDToken rawIDToken with
  | Err _ => Returns (Values_Get stateData "ref", None, None)
  | Ok idToken =>
      Returns (Values_Get stateData "ref",
               Some (mkUser (Subject idToken) ["CDE_PLUS"]), None)
  end end end end end end end end.

(** The steps of [AuthnCallback] that follow the post to the token
    endpoint, as a function of its answer. *)
Definition after_token_response (stateData : Values) (r : result Response)
  : outcome (string * option User * option error) :=
  match r with
  | Err err => Returns ("", None, Some err)
  | Ok resp =>
      if negb (StatusCode resp =? 200)%Z then
        Returns (Values_Get stateData "ref", None, None)
      else
        match Unmarshal_googleIDPResponseData (Body resp) with
        | Err _ => Returns (Values_Get stateData "ref", None, None)
        | Ok authData =>
            match strings_Split (IDToken authData) "." with
            | [_; b64IDToken; _] =>
                match RawURLEncoding_DecodeString b64IDToken with
                | Err _ => Returns (Values_Get stateData "ref", None, None)
                | Ok rawIDToken =>
                    match Unmarshal_googleIDToken rawIDToken with
                    | Err _ => Returns (Values_Get stateData "ref", None, None)
                    | Ok idToken =>
                        Returns (Values_Get stateData "ref",
                                 Some (mkUser (Subject idToken) ["CDE_PLUS"]), None)
                    end
                end
            | _ => Returns (Values_Get stateData "ref", None, None)
            end
        end
  end.

End GoogleIDP.

(** The form that [AuthnCallback] posts to the token endpoint. *)
Definition token_form (g : googleIDP) (authzCode0 : string) (stateData : Values)
  : Values :=
  Values_Set
    (Values_Set
       (Values_Set
          (Values_Set (Values_Set [] "code" authzCode0) "client_id" (clientID g))
          "client_secret" (clientSecret g))
       "redirect_uri" (Values_Get stateData "redirect_uri"))
    "grant_type" googleGrantType.

(** A response of the token endpoint that is not what the protocol promises:
    a status other than 200, a body that does not decode, or an id token that
    is not three segments. *)
Definition malformed_response `{encoding_json} (resp : Response) : Prop :=
  StatusCode resp <> 200%Z
  \/ (exists e, Unmarshal_googleIDPResponseData (Body resp) = Err e)
  \/ (exists d, Unmarshal_googleIDPResponseData (Body resp) = Ok d
                /\ List.length (strings_Split (IDToken d) ".") <> 3%nat).

(** Whether an id token has a third segment that is not empty: less than any
    check of the signature asks for. *)
Definition signature_present (idtoken : string) : bool :=
  match strings_Split idtoken "." with
  | [_; _; sig] => negb (String.eqb sig "")
  | _ => false
  end.

(** ** server/server.go *)

(** The implementations behind the interfaces of the server, and the parts of
    package [server] that [server.go] uses and other files declare: the
    default store [transientMap], the default authorization provider
    [emptyScopeSet], the default IdP [anonymousIdP] and the access token
    encoder with its constructor. *)
Class server_parts : Type := {
  TransientStorage : Type;
  Authz : Type;
  Authn : Type;
  ClientMap : Type;
  accessTokenEncoder : Type;
  make_transientMap : TransientStorage;
  new_emptyScopeSet : Authz;
  new_anonymousIdP : Authn;
  newAccessTokenEncoder : list byte -> Z -> string -> accessTokenEncoder
}.

(** Package math/rand: the state of the default source, and [rand.Read]
    filling a buffer of [n] bytes from it. *)
Class math_rand : Type := {
  rand_Source : Type;
  rand_Read : rand_Source -> nat -> list byte * rand_Source
}.

(** Package net and net/http: [net.Listen], the address of a listener, its
    [Close], and [http.Serve], which blocks and then always returns an error,
    given here by its [Error()] text. *)
Class net_http (Handler : Type) : Type := {
  Listener : Type;
  net_Listen : string -> string -> result Listener;
  Listener_Addr : Listener -> string;
  Listener_Close : Listener -> option error;
  http_Serve : Listener -> Handler -> string
}.

(** What a process shares between calls: the default random source and the
    lines written by package log. *)
Record World `{math_rand} : Type := mkWorld {
  rand_source : rand_Source;
  log_lines : list string
}.
Arguments mkWorld {_} _ _.

Section Server.
Context `{server_parts} `{math_rand} `{net_url}.

(** [idpHandler], declared in a file that is not among the sources: its
    fields are the values of the composite literal
    [idpHandler{authn, s.store, u, s.authz, s.accessTokenEnc}], in that
    order. *)
Record idpHandler : Type := mkIdpHandler {
  idp_authn : Authn;
  idp_store : option TransientStorage;
  idp_url : URL;
  idp_authz : option Authz;
  idp_accessTokenEnc : option accessTokenEncoder
}.

(** [authorizationHandler], likewise:
    [authorizationHandler{s.clientMap, s.authz, idps}]. *)
Record authorizationHandler : Type := mkAuthorizationHandler {
  ah_clientMap : option ClientMap;
  ah_authz : option Authz;
  ah_idps : gmap string idpHandler
}.

Inductive Handler : Type :=
  | Handler_idp (h : idpHandler)
  | Handler_authorization (h : authorizationHandler).

(** [http.ServeMux]: the registered patterns. *)
Definition ServeMux : Type := gmap string Handler.

Context `{net_http ServeMux}.

(** Interface and pointer fields are [None] when nil; [once] is whether
    [sync.Once] has run; the mutex carries no data. *)
Record Server : Type := mkServer {
  baseURL : URL;
  listener : option Listener;
  accessTokenEnc : option accessTokenEncoder;
  store : option TransientStorage;
  authz : option Authz;
  authn : gmap string Authn;
  clientMap : option ClientMap;
  once : bool;
  initialized : bool
}.

(** An option mutates the server it is given and returns an error or nil. *)
Definition Option : Type := Server -> Server * option error.

Definition BaseURL (u : URL) : Option := fun s =>
  if initialized s then (s, Some (errorString "Given server already initialized"))
  else (mkServer u (listener s) (accessTokenEnc s) (store s) (authz s) (authn s)
                 (clientMap s) (once s) (initialized s), None).

Definition Storage (store' : option TransientStorage) : Option := fun s =>
  if initialized s then (s, Some (errorString "Given server already initialized"))
  else (mkServer (baseURL s) (listener s) (accessTokenEnc s) store' (authz s)
                 (authn s) (clientMap s) (once s) (initialized s), None).

Definition Clients (m : option ClientMap) : Option := fun s =>
  if initialized s then (s, Some (errorString "Given server already initialized"))
  else (mkServer (baseURL s) (listener s) (accessTokenEnc s) (store s) (authz s)
                 (authn s) m (once s) (initialized s), None).

Definition AuthzProvider (p : option Authz) : Option := fun s =>
  if initialized s then (s, Some (errorString "Given server already initialized"))
  else (mkServer (baseURL s) (listener s) (accessTokenEnc s) (store s) p
                 (authn s) (clientMap s) (once s) (initialized s), None).

Definition AccessTokenConfig (secret : list byte) (lifetime : Z) (issuer : string)
  : Option := fun s =>
  if initialized s then
    (s, Some (errorString "Can only call SetAccessTokenConfig as an option to New(...)"))
  else (mkServer (baseURL s) (listener s)
                 (Some (newAccessTokenEncoder secret lifetime issuer))
                 (store s) (authz s) (authn s) (clientMap s) (once s)
                 (initialized s), None).

Definition IdP (id : string) (a : Authn) : Option := fun s =>
  if initialized s then
    (s, Some (errorString "Can only call RegisterIdP as an option to New(...)"))
  else (mkServer (baseURL s) (listener s) (accessTokenEnc s) (store s) (authz s)
                 (<[id := a]> (authn s)) (clientMap s) (once s)
                 (initialized s), None).

(** The options of the package. *)
Inductive configuration_option : Option -> Prop :=
  | option_BaseURL u : configuration_option (BaseURL u)
  | option_Storage store' : configuration_option (Storage store')
  | option_Clients m : configuration_option (Clients m)
  | option_AuthzProvider p : configuration_option (AuthzProvider p)
  | option_AccessTokenConfig secret lifetime issuer :
      configuration_option (AccessTokenConfig secret lifetime issuer)
  | option_IdP id a : configuration_option (IdP id a).


(** [&Server{authn: make(map[string]Authn)}] *)
Definition Server_fresh : Server :=
  mkServer URL_zero None None None None ∅ None false false.

(** The loop of [New] over the options: stops at the first error. *)
Fixpoint apply_options (options : list Option) (s : Server) : result Server :=
  match options with
  | [] => Ok s
  | option :: options' =>
      match option s with
      | (_, Some err) => Err err
      | (s', None) => apply_options options' s'
      end
  end.

Definition log_Println (line : string) (w : World) : World :=
  mkWorld (rand_source w) (log_lines w ++ [line])%list.

(** [New] *)
Definition New (options : list Option) (w : World) : result Server * World :=
  (* First we set options *)
  match apply_options options Server_fresh with
  | Err err => (Err err, w)
  | Ok s =>
      (* Set default accesstoken config if not set *)
      let '(s, w) :=
        match accessTokenEnc s with
        | None =>
            let w := log_Println "WARN: accesstoken config missing, using random secret." w in
            let '(secret, src) := rand_Read (rand_source w) 16 in
            (mkServer (baseURL s) (listener s)
                      (Some (newAccessTokenEncoder secret 36000 "goauth2"))
                      (store s) (authz s) (authn s) (clientMap s) (once s)
                      (initialized s),
             mkWorld src (log_lines w))
        | Some _ => (s, w)
        end in
      (* Set default transient store if none given *)
      let '(s, w) :=
        match store s with
        | None =>
            (mkServer (baseURL s) (listener s) (accessTokenEnc s)
                      (Some make_transientMap) (authz s) (authn s) (clientMap s)
                      (once s) (initialized s),
             log_Println "WARN: Using in-memory transient storage" w)
        | Some _ => (s, w)
        end in
      (* Set default scopeset if no authz provider is given *)
      let '(s, w) :=
        match authz s with
        | None =>
            (mkServer (baseURL s) (listener s) (accessTokenEnc s) (store s)
                      (Some new_emptyScopeSet) (authn s) (clientMap s) (once s)
                      (initialized s),
             log_Println "WARN: using empty scope set" w)
        | Some _ => (s, w)
        end in
      (* Set anonymous IdP if none is set *)
      let '(s, w) :=
        if (size (authn s) =? 0)%nat then
          (mkServer (baseURL s) (listener s) (accessTokenEnc s) (store s) (authz s)
                    (<["anonymous" := new_anonymousIdP]> (authn s)) (clientMap s)
                    (once s) (initialized s),
           log_Println "WARN: using anonymous authentication" w)
        else (s, w) in
      (Ok (mkServer (baseURL s) (listener s) (accessTokenEnc s) (store s) (authz s)
                    (authn s) (clientMap s) (once s) true), w)
  end.

(** [mux.Handle]: registering a pattern twice panics.  Patterns are taken
    literally, as they were before Go 1.22. *)
Definition ServeMux_Handle (mux : ServeMux) (pattern : string) (h : Handler)
  : outcome ServeMux :=
  match mux !! pattern with
  | Some _ => Panics "http: multiple registrations"
  | None => Returns (<[pattern := h]> mux)
  end.

(** The loop of [handler] over the entries of [s.authn], in the order in
    which the map hands them out. *)
Fixpoint handler_range (entries : list (string * Authn)) (s : Server)
    (mux : ServeMux) (idps : gmap string idpHandler)
  : outcome (result (ServeMux * gmap string idpHandler)) :=
  match entries with
  | [] => Returns (Ok (mux, idps))
  | (idpId, authn0) :: entries' =>
      let relPath := "authorize/" ++ idpId in
      let absPath := "/" ++ relPath in
      match URL_Parse (baseURL s) relPath with
      | Err err => Returns (Err err)
      | Ok u =>
          let handler := mkIdpHandler authn0 (store s) u (authz s) (accessTokenEnc s) in
          match ServeMux_Handle mux absPath (Handler_idp handler) with
          | Panics why => Panics why
          | Returns mux' =>
              handler_range entries' s mux' (<[idpId := handler]> idps)
          end
      end
  end.

(** [Server.handler] *)
Definition handler (s : Server) : outcome (result ServeMux) :=
  match handler_range (map_to_list (authn s)) s ∅ ∅ with
  | Panics why => Panics why
  | Returns (Err err) => Returns (Err err)
  | Returns (Ok (mux, idps)) =>
      (* Create authorization handler *)
      let authzHandler := mkAuthorizationHandler (clientMap s) (authz s) idps in
      match ServeMux_Handle mux "/authorize" (Handler_authorization authzHandler) with
      | Panics why => Panics why
      | Returns mux' => Returns (Ok mux')
      end
  end.

Definition URL_eqb (a b : URL) : bool :=
  String.eqb (Scheme a) (Scheme b) && String.eqb (Host a) (Host b)
  && String.eqb (Path a) (Path b) && String.eqb (RawQuery a) (RawQuery b).

Definition set_listener (s : Server) (l : Listener) : Server :=
  mkServer (baseURL s) (Some l) (accessTokenEnc s) (store s) (authz s) (authn s)
           (clientMap s) (once s) (initialized s).

Definition set_baseURL (s : Server) (u : URL) : Server :=
  mkServer u (listener s) (accessTokenEnc s) (store s) (authz s) (authn s)
           (clientMap s) (once s) (initialized s).

Definition set_once (s : Server) : Server :=
  mkServer (baseURL s) (listener s) (accessTokenEnc s) (store s) (authz s) (authn s)
           (clientMap s) true (initialized s).

(** [Server.Start]: the server afterwards and the errors sent on [errChan].
    Calls after the first do nothing. *)
Definition Start (s : Server) (bindAddr : string) : outcome (Server * list error) :=
  if once s then Returns (s, [])
  else
    let s := set_once s in
    (* Create listener *)
    match net_Listen "tcp" bindAddr with
    | Err err => Returns (s, [err])
    | Ok listener0 =>
        let s := set_listener s listener0 in
        (* Set baseURL to http://listener.addr/ if it isn't set *)
        let after_baseURL :=
          if URL_eqb (baseURL s) URL_zero then
            let addr := "http://" ++ Listener_Addr listener0 ++ "/" in
            match url_Parse addr with
            | Err err => inl err
            | Ok u => inr (set_baseURL s u)
            end
          else inr s in
        match after_baseURL with
        | inl err => Returns (s, [err])
        | inr s =>
            (* Create handler *)
            match handler s with
            | Panics why => Panics why
            | Returns (Err err) => Returns (s, [err])
            | Returns (Ok handler0) =>
                (* Start server *)
                let msg := http_Serve listener0 handler0 in
                if negb (strings_Contains msg "closed")
                then Returns (s, [externalError msg])
                else Returns (s, [])
            end
        end
    end.

(** [Server.Close]: the method call on a nil interface value panics. *)
Definition Close (s : Server) : outcome (option error) :=
  match listener s with
  | None => Panics "invalid memory address or nil pointer dereference"
  | Some l => Returns (Listener_Close l)
  end.

End Server.

(** ** Package encoding/gob: the wire format of an [authorizationState] *)

(** The low [k] bytes of [n], most significant first. *)
Fixpoint be_bytes (k : nat) (n : N) : list byte :=
  match k with
  | O => []
  | S k' => (be_bytes k' (n / 256) ++ [byte_N n])%list
  end.

(** The number of bytes of a [uint64] without its leading zero bytes. *)
Definition bytelen (x : N) : nat := N.to_nat (N.log2 x / 8 + 1).

(** [encodeUint]: one byte up to 127, else the negated byte count and the
    bytes, most significant first. *)
Definition encodeUint (x : N) : list byte :=
  if (x <=? 127)%N then [byte_N x]
  else byte_N (256 - N.of_nat (bytelen x)) :: be_bytes (bytelen x) x.

(** [encodeInt]: the sign goes to bit 0, a negative value is complemented. *)
Definition encodeInt (i : Z) : list byte :=
  if (i <? 0)%Z then encodeUint (Z.to_N ((- i - 1) * 2 + 1))
  else encodeUint (Z.to_N (i * 2)).

Definition be_value (bs : list byte) : N :=
  fold_left (fun x b => x * 256 + Byte.to_N b)%N bs 0%N.

(** [decodeUint]: the value and the rest of the buffer. *)
Definition decodeUint (buf : list byte) : result (N * list byte) :=
  match buf with
  | [] => Err (errorString "EOF")
  | b :: buf' =>
      if (Byte.to_N b <=? 127)%N then Ok (Byte.to_N b, buf')
      else
        let n := N.to_nat (256 - Byte.to_N b) in
        if (8 <? n)%nat then Err (errorString "gob: encoded unsigned integer out of range")
        else if (List.length buf' <? n)%nat then
          Err (errorString "invalid uint data length: exceeds input size")
        else Ok (be_value (take n buf'), drop n buf')
  end.

(** [decodeInt] *)
Definition decodeInt (buf : list byte) : result (Z * list byte) :=
  match decodeUint buf with
  | Err e => Err e
  | Ok (x, buf') =>
      if N.odd x then Ok ((- Z.of_N (x / 2) - 1)%Z, buf')
      else Ok (Z.of_N (x / 2), buf')
  end.

(** A string or a byte slice on the wire: the length, then the bytes. *)
Definition gob_bytes (bs : list byte) : list byte :=
  (encodeUint (N.of_nat (List.length bs)) ++ bs)%list.

Definition gob_string (s : string) : list byte := gob_bytes (list_byte_of_string s).

(** [encodeArray] of a [[]string]: the count, then every element, empty ones
    included. *)
Definition gob_strings (l : list string) : list byte :=
  (encodeUint (N.of_nat (List.length l)) ++ concat (map gob_string l))%list.

(** A field that is sent: the distance from the field sent before, then the
    value. *)
Definition gob_field (delta : Z) (value : list byte) : list byte :=
  (encodeUint (Z.to_N delta) ++ value)%list.

(** A message: the byte count, the type id, the body. *)
Definition gob_message (id : Z) (body : list byte) : list byte :=
  let m := (encodeInt id ++ body)%list in
  (encodeUint (N.of_nat (List.length m)) ++ m)%list.

(** Type ids: the built-in ones, and the ids that the first two types of a
    process get. *)
Definition tBytes : Z := 5.
Definition tString : Z := 6.
Definition id_authorizationState : Z := 65.
Definition id_strings : Z := 66.

(** [CommonType{Name, Id}] and [fieldType{Name, Id}] have the same shape. *)
Definition gob_named (name : string) (id : Z) : list byte :=
  (gob_field 1 (gob_string name) ++ gob_field 1 (encodeInt id) ++ [x00])%list.

(** [wireType{StructT: &structType{CommonType, Field}}] *)
Definition wire_structType (name : string) (id : Z) (fields : list (string * Z))
  : list byte :=
  gob_field 3
    (gob_field 1 (gob_named name id)
     ++ gob_field 1 (encodeUint (N.of_nat (List.length fields))
                     ++ concat (map (fun f => gob_named (fst f) (snd f)) fields))
     ++ [x00] ++ [x00])%list.

(** [wireType{SliceT: &sliceType{CommonType, Elem}}] *)
Definition wire_sliceType (name : string) (id elem : Z) : list byte :=
  gob_field 2
    (gob_field 1 (gob_named name id) ++ gob_field 1 (encodeInt elem)
     ++ [x00] ++ [x00])%list.

(** The two type definitions that precede the first value of the stream: the
    struct, then the one field type that is not built in. *)
Definition gob_typedefs : list byte :=
  (gob_message (- id_authorizationState)
     (wire_structType "authorizationState" id_authorizationState
        [("ClientId", tString); ("RedirectURI", tString); ("ResponseType", tString);
         ("Scope", id_strings); ("State", tString); ("IdPState", tBytes)])
   ++ gob_message (- id_strings) (wire_sliceType "[]string" id_strings tString))%list.

(** [tooBig]: the largest message gob writes or reads (64-bit platforms). *)
Definition tooBig : N := 8589934592.

(** A length that a [uint64] can hold. *)
Definition fits_uint64 (n : nat) : Prop := (N.of_nat n < 2 ^ 64)%N.

(** ** server/state.go *)

Record authorizationState : Type := mkAuthorizationState {
  ClientId : string;
  RedirectURI : string;
  ResponseType : string;
  Scope : list string;
  State : string;
  IdPState : list byte
}.

Definition authorizationState_zero : authorizationState :=
  mkAuthorizationState "" "" "" [] "" [].

(** The fields of a state whose lengths a [uint64] can hold. *)
Definition state_fits (a : authorizationState) : Prop :=
  fits_uint64 (String.length (ClientId a))
  /\ fits_uint64 (String.length (RedirectURI a))
  /\ fits_uint64 (String.length (ResponseType a))
  /\ fits_uint64 (List.length (Scope a))
  /\ Forall (fun s => fits_uint64 (String.length s)) (Scope a)
  /\ fits_uint64 (String.length (State a))
  /\ fits_uint64 (List.length (IdPState a)).

(** [update] and the value of one field; a field with the zero value of its
    type is not sent and leaves the field number alone. *)
Definition send_field (fieldnum field : Z) (zero : bool) (value : list byte)
  : list byte * Z :=
  if zero then ([], fieldnum) else (gob_field (field - fieldnum) value, field).

(** [encodeStruct] on an [authorizationState]: the fields in order, then the
    terminator. *)
Definition gob_struct (a : authorizationState) : list byte :=
  let fieldnum := (-1)%Z in
  let '(b0, fieldnum) :=
    send_field fieldnum 0 (String.length (ClientId a) =? 0)%nat (gob_string (ClientId a)) in
  let '(b1, fieldnum) :=
    send_field fieldnum 1 (String.length (RedirectURI a) =? 0)%nat (gob_string (RedirectURI a)) in
  let '(b2, fieldnum) :=
    send_field fieldnum 2 (String.length (ResponseType a) =? 0)%nat (gob_string (ResponseType a)) in
  let '(b3, fieldnum) :=
    send_field fieldnum 3 (List.length (Scope a) =? 0)%nat (gob_strings (Scope a)) in
  let '(b4, fieldnum) :=
    send_field fieldnum 4 (String.length (State a) =? 0)%nat (gob_string (State a)) in
  let '(b5, fieldnum) :=
    send_field fieldnum 5 (List.length (IdPState a) =? 0)%nat (gob_bytes (IdPState a)) in
  (b0 ++ b1 ++ b2 ++ b3 ++ b4 ++ b5 ++ [x00])%list.

(** [Encoder.Encode] on a new encoder: the type definitions, then the value
    as one message; a message of [tooBig] bytes or more is refused. *)
Definition gob_Encode (a : authorizationState) : result (list byte) :=
  let body := (encodeInt id_authorizationState ++ gob_struct a)%list in
  if (tooBig <=? N.of_nat (List.length body))%N then
    Err (errorString "gob: encoder: message too big")
  else Ok (gob_typedefs ++ gob_message id_authorizationState (gob_struct a))%list.

(** A string or byte slice off the wire. *)
Definition decode_bytes (buf : list byte) : result (list byte * list byte) :=
  match decodeUint buf with
  | Err e => Err e
  | Ok (n, buf') =>
      if (N.of_nat (List.length buf') <? n)%N then
        Err (errorString "invalid string length: exceeds input size")
      else Ok (take (N.to_nat n) buf', drop (N.to_nat n) buf')
  end.

(** [decodeArrayHelper] for [n] strings. *)
Fixpoint decode_strings (n : nat) (buf : list byte) : result (list string * list byte) :=
  match n with
  | O => Ok ([], buf)
  | S n' =>
      match buf with
      | [] => Err (errorString "decoding array or slice: length exceeds input size")
      | _ =>
          match decode_bytes buf with
          | Err e => Err e
          | Ok (s, buf') =>
              match decode_strings n' buf' with
              | Err e => Err e
              | Ok (l, buf'') => Ok (string_of_list_byte s :: l, buf'')
              end
          end
      end
  end.

(** [decodeSlice] of a [[]string]. *)
Definition decode_slice (buf : list byte) : result (list string * list byte) :=
  match decodeUint buf with
  | Err e => Err e
  | Ok (n, buf') =>
      if (N.of_nat (List.length buf') <? n)%N then
        Err (errorString "slice length too large: exceeds input size")
      else decode_strings (N.to_nat n) buf'
  end.

(** The decoding of field [fieldnum] into the target. *)
Definition decode_field (fieldnum : Z) (e : authorizationState) (buf : list byte)
  : result (authorizationState * list byte) :=
  let str (set : string -> authorizationState) :=
    match decode_bytes buf with
    | Err err => Err err
    | Ok (s, buf') => Ok (set (string_of_list_byte s), buf')
    end in
  if (fieldnum =? 0)%Z then
    str (fun v => mkAuthorizationState v (RedirectURI e) (ResponseType e) (Scope e)
                    (State e) (IdPState e))
  else if (fieldnum =? 1)%Z then
    str (fun v => mkAuthorizationState (ClientId e) v (ResponseType e) (Scope e)
                    (State e) (IdPState e))
  else if (fieldnum =? 2)%Z then
    str (fun v => mkAuthorizationState (ClientId e) (RedirectURI e) v (Scope e)
                    (State e) (IdPState e))
  else if (fieldnum =? 3)%Z then
    match decode_slice buf with
    | Err err => Err err
    | Ok (l, buf') =>
        Ok (mkAuthorizationState (ClientId e) (RedirectURI e) (ResponseType e) l
              (State e) (IdPState e), buf')
    end
  else if (fieldnum =? 4)%Z then
    str (fun v => mkAuthorizationState (ClientId e) (RedirectURI e) (ResponseType e)
                    (Scope e) v (IdPState e))
  else if (fieldnum =? 5)%Z then
    match decode_bytes buf with
    | Err err => Err err
    | Ok (b, buf') =>
        Ok (mkAuthorizationState (ClientId e) (RedirectURI e) (ResponseType e)
              (Scope e) (State e) b, buf')
    end
  else Err (errorString "gob: bad data: field numbers out of bounds").

(** [decodeStruct]: a field per iteration until the zero delta.  Field
    numbers only grow and there are six fields, so seven iterations are
    the most a stream can ask for before it is refused. *)
Fixpoint decodeStruct (fuel : nat) (fieldnum : Z) (e : authorizationState)
    (buf : list byte) : result authorizationState :=
  match fuel with
  | O => Err (errorString "gob: bad data: field numbers out of bounds")
  | S fuel' =>
      match decodeUint buf with
      | Err err => Err err
      | Ok (delta, buf') =>
          if (delta =? 0)%N then Ok e
          else
            let fieldnum := (fieldnum + Z.of_N delta)%Z in
            match decode_field fieldnum e buf' with
            | Err err => Err err
            | Ok (e', buf'') => decodeStruct fuel' fieldnum e' buf''
            end
      end
  end.

Fixpoint strip_prefix (p buf : list byte) : option (list byte) :=
  match p, buf with
  | [], _ => Some buf
  | x :: p', y :: buf' => if Byte.eqb x y then strip_prefix p' buf' else None
  | _ :: _, [] => None
  end.

(** [Decoder.Decode] on a new decoder, into the target [e].  The model reads
    the streams whose type definitions are [gob_typedefs]; on any other
    stream it reports an error.  A decoding that fails may have set some
    fields of the target already; the model gives no target then. *)
Definition gob_Decode (buf : list byte) (e : authorizationState)
  : result authorizationState :=
  match strip_prefix gob_typedefs buf with
  | None => Err (errorString "gob: type mismatch")
  | Some buf =>
      match decodeUint buf with
      | Err err => Err err
      | Ok (nbytes, buf) =>
          if (tooBig <=? nbytes)%N then Err (errorString "invalid message length")
          else if (N.of_nat (List.length buf) <? nbytes)%N then
            Err (errorString "unexpected EOF")
          else
            match decodeInt (take (N.to_nat nbytes) buf) with
            | Err err => Err err
            | Ok (id, body) =>
                if (id =? id_authorizationState)%Z then decodeStruct 7 (-1) e body
                else Err (errorString "gob: bad data: undefined type")
            end
      end
  end.

(** The interface [StateKeeper], declared in a file that is not among the
    sources, by the two calls that [state.go] makes, over the state of an
    engine; both calls may change that state. *)
Class StateKeeper : Type := {
  Engine : Type;
  Persist : Engine -> string -> string -> Z -> Engine * option error;
  Restore : Engine -> string -> Engine * result string
}.

(** An engine that returns exactly what was persisted: after a [Persist]
    that reports no error, [Restore] of the same key gives the value back. *)
Definition StateKeeper_faithful `{StateKeeper} : Prop :=
  forall e key value lifetime e',
    Persist e key value lifetime = (e', None) ->
    exists e'', Restore e' key = (e'', Ok value).

Section StateStorage.
Context `{StateKeeper}.

Record stateStorage : Type := mkStateStorage {
  engine : Engine;
  maxLifetime : Z
}.

Definition newStateStorage (engine0 : Engine) (lifetime : Z) : stateStorage :=
  mkStateStorage engine0 lifetime.

(** [stateStorage.restore]: the store and the target afterwards, and the
    error or nil. *)
Definition restore (store0 : stateStorage) (key : string) (e : authorizationState)
  : stateStorage * authorizationState * option error :=
  let '(engine1, r) := Restore (engine store0) key in
  let store1 := mkStateStorage engine1 (maxLifetime store0) in
  match r with
  | Err err => (store1, e, Some err)
  | Ok encoded =>
      let data := list_byte_of_string encoded in
      match gob_Decode data e with
      | Err err => (store1, e, Some err)
      | Ok e' => (store1, e', None)
      end
  end.

(** [stateStorage.persist] *)
Definition persist (store0 : stateStorage) (key : string) (data : authorizationState)
  : stateStorage * option error :=
  match gob_Encode data with
  | Err err => (store0, Some err)
  | Ok encoded =>
      let '(engine1, err) :=
        Persist (engine store0) key (string_of_list_byte encoded) (maxLifetime store0) in
      (mkStateStorage engine1 (maxLifetime store0), err)
  end.

End StateStorage.

(** ** Environments for the examples

    Concrete collaborators on which the model is run below.  Each answers
    only the inputs the examples send it. *)

Definition dquote : string := String "034" EmptyString.

(** An id token of three segments: the header [{}], the claims
    [{"sub":"mallory"}], and an empty third segment: nobody has signed it. *)
Definition forged_id_token : string := "e30.eyJzdWIiOiJtYWxsb3J5In0.".

(** [{"id_token":"e30.eyJzdWIiOiJtYWxsb3J5In0."}] *)
Definition forged_body : string :=
  "{" ++ dquote ++ "id_token" ++ dquote ++ ":" ++ dquote ++ forged_id_token
  ++ dquote ++ "}".

(** [{"sub":"mallory"}] *)
Definition mallory_claims : string :=
  "{" ++ dquote ++ "sub" ++ dquote ++ ":" ++ dquote ++ "mallory" ++ dquote ++ "}".

(** [json.Unmarshal] on the two documents above. *)
Definition example_json : encoding_json := {|
  Unmarshal_googleIDPResponseData data :=
    if String.eqb (string_of_list_byte data) forged_body
    then Ok (mkGoogleIDPResponseData "" "" 0 forged_id_token)
    else Err (externalError "invalid character looking for beginning of value");
  Unmarshal_googleIDToken data :=
    if String.eqb (string_of_list_byte data) mallory_claims
    then Ok (mkGoogleIDToken "" "" false "mallory" "" "" "" "" "" "" 0 0 "")
    else Err (externalError "invalid character looking for beginning of value")
|}.

(** [url.Parse] on [googleAuthURL], [URL.String] on a URL without query, and
    [URL.Parse] of a relative path against a base whose path is [/]. *)
Definition example_net_url : net_url := {|
  url_Parse rawURL :=
    if String.eqb rawURL googleAuthURL
    then Ok (mkURL "https" "accounts.google.com" "/o/oauth2/v2/auth" "")
    else if String.eqb rawURL "http://127.0.0.1:8080/"
    then Ok (mkURL "http" "127.0.0.1:8080" "/" "")
    else Err (externalError "parse: not a URL of the examples");
  URL_String u := Scheme u ++ "://" ++ Host u ++ Path u;
  URL_Parse base ref :=
    if String.eqb (Path base) "/" && negb (strings_ContainsByte ref ":")
       && negb (strings_ContainsByte ref "%") && negb (strings_ContainsByte ref "?")
       && negb (strings_ContainsByte ref "#") && negb (strings_ContainsByte ref ".")
    then Ok (mkURL (Scheme base) (Host base) ("/" ++ ref) "")
    else Err (externalError "parse: not a reference of the examples")
|}.

(** A token endpoint that answers every post with [status] and [body]. *)
Definition answering_client (status : Z) (body : string) : http_Client :=
  mkClient (fun _ _ => Ok (mkResponse status (list_byte_of_string body))).

(** A token endpoint that cannot be reached. *)
Definition unreachable_client : http_Client :=
  mkClient (fun _ _ => Err (externalError "dial tcp: i/o timeout")).

(** The adapter of the examples, on a given token endpoint. *)
Definition example_idp (c : http_Client) : googleIDP :=
  mkGoogleIDP "client-1" "secret-1" c.

(** The state parameter of the callbacks below, and what it parses to. *)
Definition callback_state : string :=
  "redirect_uri=https%3A%2F%2Fauth.example%2Fauthorize%2Fgoogle-oic&ref=ref1".

Definition callback_stateData : Values :=
  [("redirect_uri", ["https://auth.example/authorize/google-oic"]); ("ref", ["ref1"])].

Definition callback_URL : URL := mkURL "https" "auth.example" "/authorize/google-oic" "".

(** The callback that Google sends after [AuthnRedirect callback_URL "ref1"]:
    the state it was given, and a code. *)
Definition callback_with_code : Request :=
  mkRequest (mkURL "https" "auth.example" "/authorize/google-oic"
    "state=redirect_uri%3Dhttps%253A%252F%252Fauth.example%252Fauthorize%252Fgoogle-oic%26ref%3Dref1&code=4%2FP7q7W91").

(** The same callback after the user has refused: no code. *)
Definition callback_without_code : Request :=
  mkRequest (mkURL "https" "auth.example" "/authorize/google-oic"
    "state=redirect_uri%3Dhttps%253A%252F%252Fauth.example%252Fauthorize%252Fgoogle-oic%26ref%3Dref1").

(** Server parts named by strings; the encoder keeps what it was made of. *)
Definition example_parts : server_parts := {|
  TransientStorage := string;
  Authz := string;
  Authn := string;
  ClientMap := string;
  accessTokenEncoder := list byte * Z * string;
  make_transientMap := "transientMap";
  new_emptyScopeSet := "emptyScopeSet";
  new_anonymousIdP := "anonymousIdP";
  newAccessTokenEncoder secret lifetime issuer := (secret, lifetime, issuer)
|}.

(** A source that counts: the bytes read are the next numbers. *)
Definition example_rand : math_rand := {|
  rand_Source := N;
  rand_Read src n := (map (fun i => byte_N (src + N.of_nat i)) (seq 0 n), (src + N.of_nat n)%N)
|}.

(** A host on which one address can be bound. *)
Definition example_net_http : net_http (ServeMux (H := example_parts)) := {|
  Listener := string;
  net_Listen network address :=
    if String.eqb address "127.0.0.1:8080" then Ok address
    else Err (externalError "listen tcp: bind: address already in use");
  Listener_Addr l := l;
  Listener_Close l := None;
  http_Serve l h := "http: Server closed"
|}.

(** A key-value engine in memory that keeps what it is given. *)
Definition example_StateKeeper : StateKeeper := {|
  Engine := gmap string string;
  Persist e key value lifetime := (<[key := value]> e, None);
  Restore e key :=
    (e, match e !! key with
        | Some value => Ok value
        | None => Err (externalError "key not found")
        end)
|}.

Definition example_world : World (H := example_rand) := mkWorld (H := example_rand) 7%N [].

(** A server on which one IdP is registered. *)
Definition example_server : Server (H := example_parts) (H2 := example_net_http) :=
  mkServer (mkURL "http" "127.0.0.1:8080" "/" "") None None None None
    {["google-oic" := "googleIDP"]} None false true.

Definition example_state : authorizationState :=
  mkAuthorizationState "app1" "https://app1/cb" "token" ["read"; "write"] "" [].

(** A state decoded into a target: gob sends no zero field, so a field of
    the state that is zero leaves the target's field as it was. *)
Definition merge_state (s e : authorizationState) : authorizationState :=
  mkAuthorizationState
    (if (String.length (ClientId s) =? 0)%nat then ClientId e else ClientId s)
    (if (String.length (RedirectURI s) =? 0)%nat then RedirectURI e else RedirectURI s)
    (if (String.length (ResponseType s) =? 0)%nat then ResponseType e else ResponseType s)
    (if (List.length (Scope s) =? 0)%nat then Scope e else Scope s)
    (if (String.length (State s) =? 0)%nat then State e else State s)
    (if (List.length (IdPState s) =? 0)%nat then IdPState e else IdPState s).

(** A byte that [RawURLEncoding] does not read: outside the URL alphabet and
    no line break. *)
Definition base64_illegal (c : ascii) : bool :=
  match decodeMap c with
  | Some _ => false
  | None => negb (Ascii.eqb c "010" || Ascii.eqb c "013")
  end.

Fixpoint has_illegal_byte (s : string) : bool :=
  match s with
  | EmptyString => false
  | String c s' => base64_illegal c || has_illegal_byte s'
  end.

(** The warnings of [New], one for each part that the options left unset. *)
Definition New_warnings (enc_set store_set authz_set idp_set : bool) : list string :=
  ((if enc_set then [] else ["WARN: accesstoken config missing, using random secret."])
   ++ (if store_set then [] else ["WARN: Using in-memory transient storage"])
   ++ (if authz_set then [] else ["WARN: using empty scope set"])
   ++ (if idp_set then [] else ["WARN: using anonymous authentication"]))%list.

(** A token endpoint that answers only at one URL. *)
Definition client_at (url : string) (status : Z) (body : string) : http_Client :=
  mkClient (fun u _ =>
    if String.eqb u url then Ok (mkResponse status (list_byte_of_string body))
    else Err (externalError "no such host")).

(** An option that is not of the package: it refuses every server. *)
Definition refusing_option `{server_parts} `{!net_http ServeMux} : Option :=
  fun s => (s, Some (errorString "refused")).

(** A callback that carries a code but no state. *)
Definition callback_without_state : Request :=
  mkRequest (mkURL "https" "auth.example" "/authorize/google-oic" "code=4%2FP7q7W91").

(** The id token of [forged_id_token] with its claims segment padded, as
    the standard encoding would have it. *)
Definition padded_id_token : string := "e30.eyJzdWIiOiJtYWxsb3J5In0=.".

Definition padded_body : string :=
  "{" ++ dquote ++ "id_token" ++ dquote ++ ":" ++ dquote ++ padded_id_token
  ++ dquote ++ "}".

(** [json.Unmarshal] on the padded document. *)
Definition padded_json : encoding_json := {|
  Unmarshal_googleIDPResponseData data :=
    if String.eqb (string_of_list_byte data) padded_body
    then Ok (mkGoogleIDPResponseData "" "" 0 padded_id_token)
    else Err (externalError "invalid character looking for beginning of value");
  Unmarshal_googleIDToken data :=
    if String.eqb (string_of_list_byte data) mallory_claims
    then Ok (mkGoogleIDToken "" "" false "mallory" "" "" "" "" "" "" 0 0 "")
    else Err (externalError "invalid character looking for beginning of value")
|}.

(** The server of the examples without a base URL. *)
Definition unstarted_server : Server (H := example_parts) (H2 := example_net_http) :=
  mkServer URL_zero None None None None
    {["google-oic" := "googleIDP"]} None false true.

(** A target that is already in use. *)
Definition used_target : authorizationState :=
  mkAuthorizationState "app0" "" "" ["admin"] "left over" [].

(** A server with two IdPs: the reference of the second does not parse
    against the base URL. *)
Definition two_idp_server : Server (H := example_parts) (H2 := example_net_http) :=
  mkServer (mkURL "http" "127.0.0.1:8080" "/" "") None None None None
    (<["bad.id" := "otherIDP"]> {["google-oic" := "googleIDP"]}) None false true.

(** * Properties *)

(** ** Strings *)

Lemma append_cons (c : ascii) (s t : string) : String c s ++ t = String c (s ++ t).
Proof. reflexivity. Qed.

Lemma append_nil_l (s : string) : "" ++ s = s.
Proof. reflexivity. Qed.

Lemma append_nil_r (s : string) : s ++ "" = s.
Proof.
  induction s as [|c s IH]; [reflexivity |].
  rewrite append_cons. now f_equal.
Qed.

Lemma append_assoc (a b c : string) : (a ++ b) ++ c = a ++ (b ++ c).
Proof.
  induction a as [|x a IH]; [reflexivity |].
  rewrite !append_cons. now f_equal.
Qed.

Lemma length_append (a b : string) :
  String.length (a ++ b) = (String.length a + String.length b)%nat.
Proof.
  induction a as [|x a IH]; [reflexivity |].
  rewrite append_cons. simpl. now f_equal.
Qed.

Lemma strings_ContainsByte_app (a b : string) (sep : ascii) :
  strings_ContainsByte (a ++ b) sep
  = strings_ContainsByte a sep || strings_ContainsByte b sep.
Proof.
  induction a as [|x a IH]; [reflexivity |].
  rewrite append_cons. simpl. rewrite IH. now rewrite orb_assoc.
Qed.

Lemma strings_Cut_found (a b : string) (sep : ascii) :
  strings_ContainsByte a sep = false ->
  strings_Cut (a ++ String sep b) sep = (a, b, true).
Proof.
  induction a as [|x a IH]; intros Hno.
  - rewrite append_nil_l. simpl. now rewrite Ascii.eqb_refl.
  - rewrite append_cons. simpl in *.
    apply orb_false_iff in Hno as [Hx Ha]. rewrite Hx, (IH Ha). reflexivity.
Qed.

Lemma strings_Cut_missing (a : string) (sep : ascii) :
  strings_ContainsByte a sep = false ->
  strings_Cut a sep = (a, "", false).
Proof.
  induction a as [|x a IH]; simpl; intros Hno; [reflexivity |].
  apply orb_false_iff in Hno as [Hx Ha]. rewrite Hx, (IH Ha). reflexivity.
Qed.

(** What is cut off is shorter than the string it is cut from. *)
Lemma strings_Cut_shorter (s : string) (sep : ascii) :
  (String.length (strings_Cut s sep).1.2 <= String.length s - 1)%nat.
Proof.
  induction s as [|x s IH]; simpl; [lia |].
  destruct (Ascii.eqb x sep); simpl; [lia |].
  destruct (strings_Cut s sep) as [[before after] found]; simpl in *.
  lia.
Qed.

(** ** Query escaping *)

Lemma QueryEscape_cons (c : ascii) (s : string) :
  QueryEscape (String c s) = QueryEscape (String c "") ++ QueryEscape s.
Proof.
  simpl. destruct (shouldEscape c); [|reflexivity].
  destruct (Ascii.eqb c " "); reflexivity.
Qed.

Lemma QueryUnescape_escaped_byte (c : ascii) (u : string) :
  QueryUnescape (QueryEscape (String c "") ++ u)
  = match QueryUnescape u with Ok r => Ok (String c r) | Err e => Err e end.
Proof. destruct c as [[|] [|] [|] [|] [|] [|] [|] [|]]; reflexivity. Qed.

(** Unescaping undoes escaping, whatever follows. *)
Lemma QueryUnescape_QueryEscape_app (s u : string) :
  QueryUnescape (QueryEscape s ++ u)
  = match QueryUnescape u with Ok r => Ok (s ++ r) | Err e => Err e end.
Proof.
  induction s as [|c s IH].
  - change (QueryEscape "" ++ u) with u. destruct (QueryUnescape u); reflexivity.
  - rewrite QueryEscape_cons, append_assoc, QueryUnescape_escaped_byte, IH.
    destruct (QueryUnescape u); reflexivity.
Qed.

Lemma QueryUnescape_QueryEscape (s : string) : QueryUnescape (QueryEscape s) = Ok s.
Proof.
  rewrite <- (append_nil_r (QueryEscape s)), QueryUnescape_QueryEscape_app.
  simpl. now rewrite append_nil_r.
Qed.

(** The separators of a query never survive escaping. *)
Lemma QueryEscape_byte_clean (c : ascii) :
  strings_ContainsByte (QueryEscape (String c "")) "&" = false
  /\ strings_ContainsByte (QueryEscape (String c "")) "=" = false
  /\ strings_ContainsByte (QueryEscape (String c "")) ";" = false.
Proof. destruct c as [[|] [|] [|] [|] [|] [|] [|] [|]]; repeat split; reflexivity. Qed.

Lemma QueryEscape_clean (s : string) :
  strings_ContainsByte (QueryEscape s) "&" = false
  /\ strings_ContainsByte (QueryEscape s) "=" = false
  /\ strings_ContainsByte (QueryEscape s) ";" = false.
Proof.
  induction s as [|c s (IH1 & IH2 & IH3)]; [repeat split; reflexivity |].
  rewrite QueryEscape_cons, !strings_ContainsByte_app, IH1, IH2, IH3.
  destruct (QueryEscape_byte_clean c) as (-> & -> & ->). repeat split; reflexivity.
Qed.

(** ** Values and the parsing of queries *)

#[local] Arguments strings_Cut : simpl never.

Lemma Values_index_assign (v : Values) (k : string) (vs : list string) (k' : string) :
  Values_index (Values_assign v k vs) k'
  = if String.eqb k k' then Some vs else Values_index v k'.
Proof.
  induction v as [|[k0 vs0] v IH]; simpl; [reflexivity |].
  destruct (String.eqb k0 k) eqn:E0; simpl.
  - apply String.eqb_eq in E0 as ->. destruct (String.eqb k k'); reflexivity.
  - rewrite IH. destruct (String.eqb k0 k') eqn:E1; [|reflexivity].
    apply String.eqb_eq in E1 as ->. now rewrite String.eqb_sym, E0.
Qed.

Lemma Values_append_filled (v : Values) (k x : string) :
  Values_filled v -> Values_filled (Values_append v k x).
Proof.
  intros Hv k' vs. unfold Values_append.
  destruct (Values_index v k) as [old|]; rewrite Values_index_assign;
    destruct (String.eqb k k'); try apply Hv; intros [= <-];
    [destruct old |]; discriminate.
Qed.

Lemma parseQuery_filled (fuel : nat) :
  forall m err q, Values_filled m -> Values_filled (parseQuery fuel m err q).1.
Proof.
  induction fuel as [|fuel IH]; intros m err q Hm; [exact Hm |].
  simpl. destruct q as [|c q]; [exact Hm |].
  destruct (strings_Cut (String c q) "&") as [[key q'] found].
  destruct (strings_ContainsByte key ";"); [now apply IH |].
  destruct (String.eqb key ""); [now apply IH |].
  destruct (strings_Cut key "=") as [[ek ev] found'].
  destruct (QueryUnescape ek); [|now apply IH].
  destruct (QueryUnescape ev); [|now apply IH].
  apply IH. now apply Values_append_filled.
Qed.

Lemma URL_Query_filled (u : URL) : Values_filled (URL_Query u).
Proof. apply parseQuery_filled. intros k vs [=]. Qed.

(** Fuel above the length of the query is never used up. *)
Lemma parseQuery_fuel (f1 : nat) :
  forall f2 m err q,
    (String.length q < f1)%nat -> (String.length q < f2)%nat ->
    parseQuery f1 m err q = parseQuery f2 m err q.
Proof.
  induction f1 as [|f1 IH]; intros f2 m err q H1 H2; [lia |].
  destruct f2 as [|f2]; [lia |].
  simpl. destruct q as [|c q]; [reflexivity |].
  pose proof (strings_Cut_shorter (String c q) "&") as Hlen.
  destruct (strings_Cut (String c q) "&") as [[key q'] found].
  simpl in Hlen, H1, H2.
  assert (forall m' err', parseQuery f1 m' err' q' = parseQuery f2 m' err' q') as Hrec
    by (intros; apply IH; lia).
  destruct (strings_ContainsByte key ";"); [apply Hrec |].
  destruct (String.eqb key ""); [apply Hrec |].
  destruct (strings_Cut key "=") as [[ek ev] found'].
  destruct (QueryUnescape ek); [|apply Hrec].
  destruct (QueryUnescape ev); apply Hrec.
Qed.

(** One well-formed [key=value] piece in front of an [&]. *)
Lemma parseQuery_piece (fuel : nat) (m : Values) (err : option error)
    (piece rest ek ev k v : string) (found : bool) :
  piece <> "" ->
  strings_ContainsByte piece "&" = false ->
  strings_ContainsByte piece ";" = false ->
  strings_Cut piece "=" = (ek, ev, found) ->
  QueryUnescape ek = Ok k ->
  QueryUnescape ev = Ok v ->
  parseQuery (S fuel) m err (piece ++ String "&" rest)
  = parseQuery fuel (Values_append m k v) err rest.
Proof.
  intros Hne Hamp Hsemi Hcut Hk Hv.
  destruct piece as [|c p]; [congruence |].
  rewrite append_cons. simpl. rewrite <- append_cons.
  rewrite (strings_Cut_found _ _ _ Hamp), Hsemi.
  change (String.eqb (String c p) "") with false. cbv iota.
  now rewrite Hcut, Hk, Hv.
Qed.

(** The same piece at the end of the query. *)
Lemma parseQuery_last_piece (fuel : nat) (m : Values) (err : option error)
    (piece ek ev k v : string) (found : bool) :
  piece <> "" ->
  strings_ContainsByte piece "&" = false ->
  strings_ContainsByte piece ";" = false ->
  strings_Cut piece "=" = (ek, ev, found) ->
  QueryUnescape ek = Ok k ->
  QueryUnescape ev = Ok v ->
  parseQuery (S fuel) m err piece = (Values_append m k v, err).
Proof.
  intros Hne Hamp Hsemi Hcut Hk Hv.
  destruct piece as [|c p]; [congruence |].
  simpl. rewrite (strings_Cut_missing _ _ Hamp), Hsemi.
  change (String.eqb (String c p) "") with false. cbv iota.
  rewrite Hcut, Hk, Hv. destruct fuel; reflexivity.
Qed.

(** An escaped key, [=], and an escaped value make a well-formed piece. *)
Lemma escaped_piece (k v : string) :
  let piece := QueryEscape k ++ String "=" (QueryEscape v) in
  piece <> ""
  /\ strings_ContainsByte piece "&" = false
  /\ strings_ContainsByte piece ";" = false
  /\ strings_Cut piece "=" = (QueryEscape k, QueryEscape v, true).
Proof.
  destruct (QueryEscape_clean k) as (Hk1 & Hk2 & Hk3).
  destruct (QueryEscape_clean v) as (Hv1 & Hv2 & Hv3).
  cbv zeta. repeat split.
  - destruct (QueryEscape k); discriminate.
  - rewrite strings_ContainsByte_app, Hk1. simpl. exact Hv1.
  - rewrite strings_ContainsByte_app, Hk3. simpl. exact Hv3.
  - now apply strings_Cut_found.
Qed.

Lemma parse_from_pair (m : Values) (err : option error) (k v rest : string) :
  parse_from m err (QueryEscape k ++ String "=" (QueryEscape v) ++ String "&" rest)
  = parse_from (Values_append m k v) err rest.
Proof.
  destruct (escaped_piece k v) as (Hne & Hamp & Hsemi & Hcut).
  unfold parse_from. rewrite <- append_assoc.
  erewrite parseQuery_piece; eauto using QueryUnescape_QueryEscape.
  apply parseQuery_fuel; rewrite ?length_append; simpl; lia.
Qed.

Lemma parse_from_last (m : Values) (err : option error) (k v : string) :
  parse_from m err (QueryEscape k ++ String "=" (QueryEscape v))
  = (Values_append m k v, err).
Proof.
  destruct (escaped_piece k v) as (Hne & Hamp & Hsemi & Hcut).
  unfold parse_from.
  erewrite parseQuery_last_piece; eauto using QueryUnescape_QueryEscape.
Qed.

(** ** Encoding and parsing a whole map *)

Lemma Values_index_None (v : Values) (k : string) :
  Values_index v k = None <-> k ∉ map fst v.
Proof.
  induction v as [|[k0 vs0] v IH]; simpl.
  - split; [intros _; apply not_elem_of_nil | reflexivity].
  - rewrite not_elem_of_cons. destruct (String.eqb k0 k) eqn:E.
    + apply String.eqb_eq in E as ->. split; [discriminate | intros [[] _]; reflexivity].
    + apply String.eqb_neq in E. rewrite IH. split; [intros; split; congruence | tauto].
Qed.

Lemma Values_assign_keys (v : Values) (k : string) (vs : list string) :
  map fst (Values_assign v k vs)
  = if Values_index v k is Some _ then map fst v else (map fst v ++ [k])%list.
Proof.
  induction v as [|[k0 vs0] v IH]; simpl; [reflexivity |].
  destruct (String.eqb k0 k) eqn:E; simpl.
  - reflexivity.
  - rewrite IH. now destruct (Values_index v k).
Qed.

Lemma Values_assign_wf (v : Values) (k : string) (vs : list string) :
  vs <> [] -> Values_wf v -> Values_wf (Values_assign v k vs).
Proof.
  intros Hvs [Hnodup Hfilled]. split.
  - rewrite Values_assign_keys. destruct (Values_index v k) eqn:E; [exact Hnodup |].
    apply Values_index_None in E.
    apply NoDup_app. repeat split; [exact Hnodup | | apply NoDup_singleton].
    intros x Hx Hin. apply list_elem_of_singleton in Hin as ->. contradiction.
  - intros k' vs'. rewrite Values_index_assign.
    destruct (String.eqb k k'); [now intros [= <-] | apply Hfilled].
Qed.

Lemma Values_Set_wf (v : Values) (k x : string) : Values_wf v -> Values_wf (Values_Set v k x).
Proof. now apply Values_assign_wf. Qed.

Lemma Values_append_wf (v : Values) (k x : string) :
  Values_wf v -> Values_wf (Values_append v k x).
Proof.
  intros Hv. unfold Values_append.
  destruct (Values_index v k) as [old|]; apply Values_assign_wf; try exact Hv;
    [destruct old |]; discriminate.
Qed.

Lemma parseQuery_wf (fuel : nat) :
  forall m err q, Values_wf m -> Values_wf (parseQuery fuel m err q).1.
Proof.
  induction fuel as [|fuel IH]; intros m err q Hm; [exact Hm |].
  simpl. destruct q as [|c q]; [exact Hm |].
  destruct (strings_Cut (String c q) "&") as [[key q'] found].
  destruct (strings_ContainsByte key ";"); [now apply IH |].
  destruct (String.eqb key ""); [now apply IH |].
  destruct (strings_Cut key "=") as [[ek ev] found'].
  destruct (QueryUnescape ek); [|now apply IH].
  destruct (QueryUnescape ev); [|now apply IH].
  apply IH. now apply Values_append_wf.
Qed.

Lemma Values_wf_nil : Values_wf [].
Proof. split; [constructor | intros k vs [=]]. Qed.

Lemma URL_Query_wf (u : URL) : Values_wf (URL_Query u).
Proof. apply parseQuery_wf, Values_wf_nil. Qed.

Lemma insert_sorted_Permutation (k : string) (ks : list string) :
  insert_sorted k ks ≡ₚ k :: ks.
Proof.
  induction ks as [|k' ks IH]; simpl; [reflexivity |].
  destruct (string_ltb k' k); [|reflexivity].
  rewrite IH. apply Permutation_swap.
Qed.

Lemma sort_Strings_Permutation (ks : list string) : sort_Strings ks ≡ₚ ks.
Proof.
  induction ks as [|k ks IH]; simpl; [reflexivity |].
  now rewrite insert_sorted_Permutation, IH.
Qed.

Lemma Encode_values_fold (buf k : string) (vs : list string) :
  Encode_values buf (QueryEscape k) vs = fold_left write_piece (map (pair k) vs) buf.
Proof.
  revert buf. induction vs as [|x vs IH]; intros buf; [reflexivity |].
  cbn [Encode_values map fold_left]. now rewrite IH.
Qed.

Lemma Encode_keys_fold (buf : string) (v : Values) (keys : list string) :
  Encode_keys buf v keys = fold_left write_piece (pairs_of v keys) buf.
Proof.
  revert buf. induction keys as [|k keys IH]; intros buf; [reflexivity |].
  unfold pairs_of. cbn [Encode_keys map concat].
  now rewrite fold_left_app, IH, Encode_values_fold.
Qed.

Lemma piece_nonempty (p : string * string) : piece p <> "".
Proof. unfold piece. destruct (QueryEscape p.1); discriminate. Qed.

Lemma write_more_pieces (ps : list (string * string)) :
  forall buf, buf <> "" -> fold_left write_piece ps buf = buf ++ more_pieces ps.
Proof.
  induction ps as [|p ps IH]; intros buf Hbuf; cbn [fold_left more_pieces].
  - now rewrite append_nil_r.
  - rewrite IH.
    + unfold write_piece. destruct buf as [|c buf]; [congruence |].
      cbn [String.length Nat.eqb]. now rewrite !append_assoc.
    + unfold write_piece. destruct buf as [|c buf]; [congruence |]. discriminate.
Qed.

(** [Encode] writes the pairs of the sorted keys, joined by [&]. *)
Lemma Values_Encode_pieces (v : Values) :
  Values_Encode v
  = match pairs_of v (sort_Strings (map fst v)) with
    | [] => ""
    | p :: ps => piece p ++ more_pieces ps
    end.
Proof.
  unfold Values_Encode. rewrite Encode_keys_fold.
  destruct (pairs_of _ _) as [|p ps]; [reflexivity |].
  cbn [fold_left]. change (write_piece "" p) with (piece p).
  apply write_more_pieces, piece_nonempty.
Qed.

(** Parsing what was written adds the pairs in their order. *)
Lemma parse_from_pieces (ps : list (string * string)) :
  forall m err p,
    parse_from m err (piece p ++ more_pieces ps)
    = (fold_left add_pair ps (add_pair m p), err).
Proof.
  induction ps as [|p' ps IH]; intros m err p; cbn [more_pieces fold_left].
  - rewrite append_nil_r. apply parse_from_last.
  - unfold piece at 1. rewrite append_assoc, append_cons.
    change (String "=" (QueryEscape p.2 ++ ?r)) with (String "=" (QueryEscape p.2) ++ r).
    rewrite parse_from_pair. apply IH.
Qed.

Lemma Values_index_append (m : Values) (k x k' : string) :
  Values_index (Values_append m k x) k'
  = if String.eqb k k' then Some (default [] (Values_index m k) ++ [x])%list
    else Values_index m k'.
Proof.
  unfold Values_append.
  destruct (Values_index m k) as [old|] eqn:E; rewrite Values_index_assign;
    destruct (String.eqb k k'); reflexivity.
Qed.

Lemma Values_index_add_pairs (ps : list (string * string)) :
  forall m k,
    Values_index (fold_left add_pair ps m) k
    = match values_of k ps with
      | [] => Values_index m k
      | xs => Some (default [] (Values_index m k) ++ xs)%list
      end.
Proof.
  induction ps as [|[k0 x0] ps IH]; intros m k; [reflexivity |].
  cbn [fold_left]. rewrite IH.
  change (add_pair m (k0, x0)) with (Values_append m k0 x0).
  rewrite Values_index_append. unfold values_of. rewrite filter_cons. cbn [fst].
  destruct (decide (k0 = k)) as [->|Hne].
  - rewrite String.eqb_refl. cbn [map snd default].
    destruct (map snd (filter _ ps)) as [|y ys]; [reflexivity |].
    unfold id. now rewrite <- app_assoc.
  - apply String.eqb_neq in Hne. now rewrite Hne.
Qed.

Lemma values_of_pairs (v : Values) (k : string) (keys : list string) :
  NoDup keys ->
  values_of k (pairs_of v keys)
  = if decide (k ∈ keys) then default [] (Values_index v k) else [].
Proof.
  unfold values_of, pairs_of.
  induction 1 as [|k0 keys Hfresh Hnodup IH]; [reflexivity |].
  cbn [map concat]. rewrite filter_app, map_app, IH.
  assert (forall vs, map snd (filter (fun p : string * string => p.1 = k) (map (pair k0) vs))
                     = if decide (k0 = k) then vs else []) as Hhead.
  { intros vs. destruct (decide (k0 = k)) as [->|Hne].
    - induction vs as [|x vs IHvs]; [reflexivity |].
      cbn [map]. rewrite filter_cons_True by reflexivity.
      cbn [map snd]. now f_equal.
    - induction vs as [|x vs IHvs]; [reflexivity |].
      cbn [map]. now rewrite filter_cons_False by (cbn; congruence). }
  rewrite Hhead. destruct (decide (k0 = k)) as [->|Hne].
  - rewrite decide_False by exact Hfresh.
    rewrite decide_True by apply list_elem_of_here. apply app_nil_r.
  - destruct (decide (k ∈ keys)) as [Hin|Hout].
    + rewrite decide_True by now apply list_elem_of_further. reflexivity.
    + rewrite decide_False; [reflexivity |].
      rewrite not_elem_of_cons. split; congruence.
Qed.

(** Parsing undoes encoding: every key finds its values again, and no error
    is reported. *)
Lemma ParseQuery_Values_Encode (v : Values) :
  Values_wf v ->
  (forall k, Values_index (ParseQuery (Values_Encode v)).1 k = Values_index v k)
  /\ (ParseQuery (Values_Encode v)).2 = None.
Proof.
  intros [Hnodup Hfilled]. rewrite Values_Encode_pieces.
  pose proof (sort_Strings_Permutation (map fst v)) as Hperm.
  assert (forall k, values_of k (pairs_of v (sort_Strings (map fst v)))
                    = default [] (Values_index v k)) as Hvalues.
  { intros k. rewrite values_of_pairs by now rewrite Hperm.
    destruct (decide _) as [Hin|Hout]; [reflexivity |].
    rewrite Hperm in Hout. apply Values_index_None in Hout. now rewrite Hout. }
  change (ParseQuery ?q) with (parse_from [] None q).
  destruct (pairs_of v _) as [|p ps] eqn:Hpairs.
  - split; [|reflexivity]. intros k. specialize (Hvalues k).
    destruct (Values_index v k) as [vs|] eqn:E; [|reflexivity].
    cbn in Hvalues. subst vs. now apply Hfilled in E.
  - rewrite parse_from_pieces. cbn [fst snd]. split; [|reflexivity]. intros k.
    change (fold_left add_pair ps (add_pair [] p)) with (fold_left add_pair (p :: ps) []).
    rewrite Values_index_add_pairs, Hvalues. cbn [Values_index default app].
    destruct (Values_index v k) as [vs|] eqn:E; [|reflexivity].
    cbn [default]. destruct vs; [now apply Hfilled in E | reflexivity].
Qed.

(** ** The state parameter of the Google adapter *)


Section GoogleIDP_properties.
Context `{net_url} `{encoding_json}.

(** The redirect URL carries the encoded state as its [state] parameter,
    whatever query the parsed [googleAuthURL] has to begin with. *)
Lemma AuthnRedirect_state (g : googleIDP) (callbackURL u : URL) (authzRef : string) :
  AuthnRedirect g callbackURL authzRef = Ok u ->
  Values_index (URL_Query u) "state"
  = Some [Values_Encode
            (Values_Set (Values_Set [] "ref" authzRef) "redirect_uri"
               (URL_String callbackURL))].
Proof.
  unfold AuthnRedirect.
  destruct (url_Parse googleAuthURL) as [authURL|] eqn:Hparse; [|discriminate].
  intros [= <-]. unfold URL_Query at 1. cbn [RawQuery].
  match goal with
  | |- Values_index (ParseQuery (Values_Encode ?v)).1 _ = _ =>
      destruct (ParseQuery_Values_Encode v) as [-> _]
  end.
  - repeat apply Values_Set_wf. apply URL_Query_wf.
  - unfold Values_Set at 1. now rewrite Values_index_assign.
Qed.

(** The callback in steps: once the state parameter has parsed, a request
    without code stops with the reference, and a request with a code goes
    on to the token endpoint.  Neither index can be out of range. *)
Lemma AuthnCallback_after_state (g : googleIDP) (r : Request) (vs : list string)
    (stateData : Values) :
  Values_index (URL_Query (Request_URL r)) "state" = Some vs ->
  ParseQuery (hd "" vs) = (stateData, None) ->
  AuthnCallback g r
  = match Values_index (URL_Query (Request_URL r)) "code" with
    | None => Returns (Values_Get stateData "ref", None, None)
    | Some cs =>
        after_token_response stateData
          (PostForm (client g) googleTokenURL (token_form g (hd "" cs) stateData))
    end.
Proof.
  intros Hstate Hparse. unfold AuthnCallback. rewrite Hstate.
  destruct vs as [|state0 vs]; [now apply URL_Query_filled in Hstate |].
  simpl in Hparse. rewrite Hparse.
  destruct (Values_index _ "code") as [cs|] eqn:Hcode; [|reflexivity].
  destruct cs as [|code0 cs]; [now apply URL_Query_filled in Hcode |].
  change (hd "" (code0 :: cs)) with code0.
  change (Values_Set _ "grant_type" googleGrantType)
    with (token_form g code0 stateData).
  unfold after_token_response.
  destruct (PostForm _ _ _) as [resp|err]; [|reflexivity].
  destruct (negb _); [reflexivity |].
  destruct (Unmarshal_googleIDPResponseData _) as [authData|]; [|reflexivity].
  destruct (strings_Split _ _) as [|p0 [|p1 [|p2 [|p3 ps]]]]; reflexivity.
Qed.

(** C5. A callback that carries a well-formed state parameter and no
    [code] parameter is a denial by the user: the adapter returns the
    reference recovered from the state, no user and a nil error. *)
Theorem AuthnCallback_missing_code_is_denial (g : googleIDP) (r : Request)
    (vs : list string) (stateData : Values) :
  Values_index (URL_Query (Request_URL r)) "state" = Some vs ->
  ParseQuery (hd "" vs) = (stateData, None) ->
  Values_index (URL_Query (Request_URL r)) "code" = None ->
  AuthnCallback g r = Returns (Values_Get stateData "ref", None, None).
Proof.
  intros Hstate Hparse Hcode.
  now rewrite (AuthnCallback_after_state g r vs stateData Hstate Hparse), Hcode.
Qed.

(** C6, as the code has it.  When the token endpoint answers with a
    malformed response (a status other than 200, a body that does not
    decode, an id token that is not three segments), the adapter returns the
    recovered reference, no user and a nil error.  It returns an error
    exactly when the post to the token endpoint itself fails, and then it
    is that error. *)
Theorem AuthnCallback_malformed_response_is_denial (g : googleIDP) (r : Request)
    (vs cs : list string) (stateData : Values) :
  Values_index (URL_Query (Request_URL r)) "state" = Some vs ->
  ParseQuery (hd "" vs) = (stateData, None) ->
  Values_index (URL_Query (Request_URL r)) "code" = Some cs ->
  (forall resp,
      PostForm (client g) googleTokenURL (token_form g (hd "" cs) stateData) = Ok resp ->
      malformed_response resp ->
      AuthnCallback g r = Returns (Values_Get stateData "ref", None, None))
  /\ (forall err,
        (exists ref user, AuthnCallback g r = Returns (ref, user, Some err))
        <-> PostForm (client g) googleTokenURL (token_form g (hd "" cs) stateData)
            = Err err).
Proof.
  intros Hstate Hparse Hcode.
  rewrite (AuthnCallback_after_state g r vs stateData Hstate Hparse), Hcode.
  unfold after_token_response. split.
  - intros resp -> [Hstatus | [[e He] | (d & Hd & Hparts)]].
    + apply Z.eqb_neq in Hstatus. now rewrite Hstatus.
    + rewrite He. now destruct (negb _).
    + rewrite Hd. destruct (negb _); [reflexivity |].
      destruct (strings_Split _ _) as [|p0 [|p1 [|p2 [|p3 ps]]]];
        try reflexivity.
      now contradiction Hparts.
  - intros err.
    destruct (PostForm _ _ _) as [resp|err']; split.
    + intros (ref & user & Hret). exfalso. revert Hret.
      destruct (negb _); [discriminate |].
      destruct (Unmarshal_googleIDPResponseData _); [|discriminate].
      destruct (strings_Split _ _) as [|p0 [|p1 [|p2 [|p3 ps]]]];
        try discriminate.
      destruct (RawURLEncoding_DecodeString _); [|discriminate].
      destruct (Unmarshal_googleIDToken _); discriminate.
    + discriminate.
    + now intros (ref & user & [= _ _ ->]).
    + intros [= ->]. now exists "", None.
Qed.

(** C1, as the code has it.  When the token endpoint answers 200 with a
    body that decodes and an id token of three segments, what the adapter
    returns is decided by the second segment alone: a user with the [sub]
    of its claims when it is base64url of claims that decode, no user
    otherwise.  The first and the third segment, the signature, are not
    looked at. *)
Theorem AuthnCallback_user_from_claims_segment (g : googleIDP) (r : Request)
    (vs cs : list string) (stateData : Values) (resp : Response)
    (authData : googleIDPResponseData) (header claims signature : string) :
  Values_index (URL_Query (Request_URL r)) "state" = Some vs ->
  ParseQuery (hd "" vs) = (stateData, None) ->
  Values_index (URL_Query (Request_URL r)) "code" = Some cs ->
  PostForm (client g) googleTokenURL (token_form g (hd "" cs) stateData) = Ok resp ->
  StatusCode resp = 200%Z ->
  Unmarshal_googleIDPResponseData (Body resp) = Ok authData ->
  strings_Split (IDToken authData) "." = [header; claims; signature] ->
  AuthnCallback g r
  = Returns (Values_Get stateData "ref",
             match RawURLEncoding_DecodeString claims with
             | Err _ => None
             | Ok rawIDToken =>
                 match Unmarshal_googleIDToken rawIDToken with
                 | Err _ => None
                 | Ok idToken => Some (mkUser (Subject idToken) ["CDE_PLUS"])
                 end
             end,
             None).
Proof.
  intros Hstate Hparse Hcode Hpost Hstatus Hbody Hparts.
  rewrite (AuthnCallback_after_state g r vs stateData Hstate Hparse), Hcode.
  unfold after_token_response.
  rewrite Hpost, Hstatus, Hbody, Hparts. simpl.
  destruct (RawURLEncoding_DecodeString claims); [|reflexivity].
  now destruct (Unmarshal_googleIDToken _).
Qed.


End GoogleIDP_properties.

(** ** The construction of the server *)

Section Server_properties.
Context `{server_parts} `{math_rand} `{net_url}.
Context `{!net_http ServeMux}.

(** An option of the package fails on an initialized server and changes
    nothing; on a server under construction it succeeds and leaves the
    listener, [once] and [initialized] alone. *)
Lemma configuration_option_initialized (o : Option) (s : Server) :
  configuration_option o -> initialized s = true ->
  exists err, o s = (s, Some err).
Proof. intros [] Hinit; cbv beta delta [BaseURL Storage Clients AuthzProvider AccessTokenConfig IdP]; rewrite Hinit; eauto. Qed.

Lemma configuration_option_building (o : Option) (s : Server) :
  configuration_option o -> initialized s = false ->
  exists s', o s = (s', None)
    /\ listener s' = listener s /\ once s' = once s /\ initialized s' = false.
Proof.
  intros [] Hinit;
    cbv beta delta [BaseURL Storage Clients AuthzProvider AccessTokenConfig IdP];
    rewrite Hinit; eexists; repeat split; assumption.
Qed.

Lemma apply_options_building (options : list Option) :
  Forall configuration_option options ->
  forall s, initialized s = false ->
  exists s', apply_options options s = Ok s'
    /\ listener s' = listener s /\ once s' = once s /\ initialized s' = false.
Proof.
  induction 1 as [|o options Ho _ IH]; intros s Hinit; simpl; [eauto |].
  destruct (configuration_option_building o s Ho Hinit)
    as (s1 & -> & Hl & Ho1 & Hi).
  destruct (IH s1 Hi) as (s2 & -> & Hl2 & Ho2 & Hi2).
  exists s2. repeat split; congruence.
Qed.



(** [New] after its options: every missing part gets its default, nothing
    else changes, and the server is marked initialized. *)
Lemma New_after_options (options : list Option) (w : World) (s0 : Server) :
  apply_options options Server_fresh = Ok s0 ->
  exists s w',
    New options w = (Ok s, w')
    /\ initialized s = true
    /\ accessTokenEnc s
       = Some (default (newAccessTokenEncoder (rand_Read (rand_source w) 16).1
                          36000 "goauth2")
                 (accessTokenEnc s0))
    /\ store s = Some (default make_transientMap (store s0))
    /\ authz s = Some (default new_emptyScopeSet (authz s0))
    /\ authn s = (if (size (authn s0) =? 0)%nat
                  then <["anonymous" := new_anonymousIdP]> (authn s0)
                  else authn s0)
    /\ baseURL s = baseURL s0 /\ clientMap s = clientMap s0
    /\ listener s = listener s0 /\ once s = once s0.
Proof.
  intros Hopts. unfold New. rewrite Hopts.
  destruct s0 as [bu li enc st az an cm on ini]; cbn [accessTokenEnc].
  destruct enc as [enc|]; cbn;
    [|destruct (rand_Read (rand_source w) 16) as [secret src]; cbn];
    destruct st as [st|]; cbn; destruct az as [az|]; cbn;
    destruct (size an =? 0)%nat; cbn;
    eexists _, _; repeat split.
Qed.

Lemma New_initialized (options : list Option) (w w' : World) (s : Server) :
  New options w = (Ok s, w') -> initialized s = true.
Proof.
  intros HNew. unfold New in HNew.
  destruct (apply_options options Server_fresh) as [s0|err] eqn:Hopts;
    [|discriminate].
  destruct (New_after_options options w s0 Hopts) as (s1 & w1 & HNew1 & Hinit & _).
  unfold New in HNew1. rewrite Hopts in HNew1. congruence.
Qed.

(** C2. On a server that [New] has returned, each option of the package
    (BaseURL, Storage, Clients, AuthzProvider, AccessTokenConfig, IdP)
    returns an error and leaves the server as it was, field by field. *)
Theorem option_after_New_fails (options : list Option) (w w' : World)
    (s : Server) (o : Option) :
  New options w = (Ok s, w') ->
  configuration_option o ->
  exists err, o s = (s, Some err).
Proof.
  intros HNew Ho.
  apply (configuration_option_initialized o s Ho).
  exact (New_initialized options w w' s HNew).
Qed.


(** [New] reads the random source exactly when the options have left the
    encoder unset. *)
Lemma New_rand_source_after_options (options : list Option) (w w' : World)
    (s s0 : Server) :
  apply_options options Server_fresh = Ok s0 ->
  New options w = (Ok s, w') ->
  rand_source w'
  = (if accessTokenEnc s0 is Some _ then rand_source w
     else (rand_Read (rand_source w) 16).2).
Proof.
  intros Hopts. unfold New, log_Println. rewrite Hopts.
  destruct w as [src lines].
  destruct s0 as [bu li enc st az an cm on ini]; cbn [accessTokenEnc].
  destruct enc as [enc|]; cbn;
    [|destruct (rand_Read src 16) as [secret src']; cbn];
    destruct st as [st|]; cbn; destruct az as [az|]; cbn;
    destruct (size an =? 0)%nat; cbn; now intros [= _ <-].
Qed.


Lemma New_listener (options : list Option) (w w' : World) (s : Server) :
  Forall configuration_option options ->
  New options w = (Ok s, w') ->
  listener s = None /\ once s = false.
Proof.
  intros Hopts HNew.
  destruct (apply_options_building options Hopts Server_fresh eq_refl)
    as (s0 & Happly & Hl & Ho & _).
  destruct (New_after_options options w s0 Happly)
    as (s' & w'' & HNew' & _ & _ & _ & _ & _ & _ & _ & Hl' & Ho').
  rewrite HNew in HNew'. injection HNew' as <- <-.
  split; [rewrite Hl', Hl | rewrite Ho', Ho]; reflexivity.
Qed.

End Server_properties.

(** ** The request handler and the listener *)

Lemma authorize_path_inj (a b : string) :
  "/" ++ "authorize/" ++ a = "/" ++ "authorize/" ++ b -> a = b.
Proof. intros Heq. vm_compute in Heq. now injection Heq. Qed.

Lemma authorize_path_long (a : string) : "/authorize" <> "/" ++ "authorize/" ++ a.
Proof. intros Heq. vm_compute in Heq. discriminate. Qed.

Lemma callback_path_apart (a b : string) :
  "/callback/" ++ a <> "/" ++ "authorize/" ++ b.
Proof. intros Heq. vm_compute in Heq. discriminate. Qed.

Section Handler_properties.
Context `{server_parts} `{math_rand} `{net_url}.
Context `{!net_http ServeMux}.

(** The loop over the IdPs neither panics nor touches other patterns; it
    fails with the error of a reference that does not parse, and otherwise
    registers every entry under its own path. *)
Lemma handler_range_spec (entries : list (string * Authn)) (s : Server) :
  forall (mux : ServeMux) (idps : gmap string idpHandler),
    NoDup entries.*1 ->
    (forall id, id ∈ entries.*1 -> mux !! ("/" ++ "authorize/" ++ id) = None) ->
    match handler_range entries s mux idps with
    | Panics _ => False
    | Returns (Err err) =>
        exists id, id ∈ entries.*1
                   /\ URL_Parse (baseURL s) ("authorize/" ++ id) = Err err
    | Returns (Ok (mux', idps')) =>
        (forall id a, (id, a) ∈ entries ->
           exists u, URL_Parse (baseURL s) ("authorize/" ++ id) = Ok u
             /\ mux' !! ("/" ++ "authorize/" ++ id)
                = Some (Handler_idp
                          (mkIdpHandler a (store s) u (authz s) (accessTokenEnc s))))
        /\ (forall p, (forall id, id ∈ entries.*1 -> p <> "/" ++ "authorize/" ++ id) ->
              mux' !! p = mux !! p)
    end.
Proof.
  unfold ServeMux.
  induction entries as [|[id0 a0] entries IH]; intros mux idps Hnodup Hfree.
  - simpl. split; [intros id a Hin; inversion Hin | reflexivity].
  - cbn [handler_range].
    rewrite fmap_cons in Hnodup, Hfree. cbn [fst] in Hnodup, Hfree.
    apply NoDup_cons in Hnodup as [Hfresh Hnodup].
    destruct (URL_Parse (baseURL s) ("authorize/" ++ id0)) as [u|err] eqn:Hparse.
    + unfold ServeMux_Handle, ServeMux in Hfree, IH |- *.
      rewrite (Hfree id0) by apply list_elem_of_here.
      specialize (IH (<["/" ++ "authorize/" ++ id0 :=
                         Handler_idp (mkIdpHandler a0 (store s) u (authz s)
                                        (accessTokenEnc s))]> mux)
                     (<[id0 := mkIdpHandler a0 (store s) u (authz s)
                                 (accessTokenEnc s)]> idps) Hnodup).
      destruct (handler_range entries s _ _) as [[[mux' idps']|err]|why].
      * destruct IH as [Hreg Hframe].
        { intros id Hin. rewrite lookup_insert_ne.
          - apply Hfree. now apply list_elem_of_further.
          - intros Heq. apply authorize_path_inj in Heq. congruence. }
        split.
        -- intros id a Hin. apply elem_of_cons in Hin as [[= -> ->]|Hin].
           ++ exists u. split; [exact Hparse |].
              rewrite Hframe, lookup_insert_eq; [reflexivity |].
              intros id Hin Heq. apply authorize_path_inj in Heq. congruence.
           ++ now apply Hreg.
        -- intros p Hp. rewrite Hframe.
           ++ apply lookup_insert_ne. intros Heq. symmetry in Heq. revert Heq.
              apply Hp, list_elem_of_here.
           ++ intros id Hin. apply Hp. now apply list_elem_of_further.
      * destruct IH as (id & Hin & Herr).
        { intros id Hin. rewrite lookup_insert_ne.
          - apply Hfree. now apply list_elem_of_further.
          - intros Heq. apply authorize_path_inj in Heq. congruence. }
        exists id. split; [now apply list_elem_of_further | exact Herr].
      * apply IH. intros id Hin. rewrite lookup_insert_ne.
        -- apply Hfree. now apply list_elem_of_further.
        -- intros Heq. apply authorize_path_inj in Heq. congruence.
    + exists id0. split; [apply list_elem_of_here | exact Hparse].
Qed.

(** [handler] never panics. *)
Lemma handler_returns (s : Server) : exists r, handler s = Returns r.
Proof.
  unfold handler.
  pose proof (handler_range_spec (map_to_list (authn s)) s ∅ ∅
                (NoDup_fst_map_to_list _) (fun _ _ => lookup_empty _)) as Hspec.
  unfold ServeMux_Handle, ServeMux in Hspec |- *.
  destruct (handler_range _ _ _ _) as [[[mux idps]|err]|why];
    [|eauto|contradiction].
  destruct Hspec as [_ Hframe].
  rewrite Hframe, lookup_empty; [eauto |].
  intros id _. apply authorize_path_long.
Qed.

(** C7, as the code has it.  When the reference [authorize/<idp_id>]
    parses against the base URL for every registered IdP, [handler]
    returns a mux in which every registered IdP [idp_id] has its handler
    under the pattern [/authorize/<idp_id>], and that handler holds the
    IdP, the store, the authorization provider, the encoder, and the URL
    that the base URL gives for the reference [authorize/<idp_id>].  When
    the reference of some registered IdP does not parse, [handler] returns
    no mux but the parse error of the reference of a registered IdP: no IdP
    is registered then, not even one whose reference parses. *)
Theorem handler_registers_authorize_paths (s : Server) :
  ((forall id a, authn s !! id = Some a ->
      exists u, URL_Parse (baseURL s) ("authorize/" ++ id) = Ok u) ->
   exists mux,
     handler s = Returns (Ok mux)
     /\ forall id a, authn s !! id = Some a ->
          exists u, URL_Parse (baseURL s) ("authorize/" ++ id) = Ok u
            /\ mux !! ("/authorize/" ++ id)
               = Some (Handler_idp
                         (mkIdpHandler a (store s) u (authz s) (accessTokenEnc s))))
  /\ (forall id a err,
        authn s !! id = Some a ->
        URL_Parse (baseURL s) ("authorize/" ++ id) = Err err ->
        exists id' a' err',
          authn s !! id' = Some a'
          /\ URL_Parse (baseURL s) ("authorize/" ++ id') = Err err'
          /\ handler s = Returns (Err err')).
Proof.
  pose proof (handler_range_spec (map_to_list (authn s)) s ∅ ∅
                (NoDup_fst_map_to_list _) (fun _ _ => lookup_empty _)) as Hspec.
  split.
  - intros Hparse. unfold handler.
    unfold ServeMux_Handle, ServeMux in Hspec |- *.
    destruct (handler_range _ _ _ _) as [[[mux idps]|err]|why]; [| |contradiction].
    + destruct Hspec as [Hreg Hframe].
      rewrite Hframe, lookup_empty by (intros id _; apply authorize_path_long).
      eexists. split; [reflexivity |].
      intros id a Hin. apply elem_of_map_to_list in Hin.
      destruct (Hreg id a Hin) as (u & Hu & Hmux). exists u. split; [exact Hu |].
      rewrite lookup_insert_ne by apply authorize_path_long. exact Hmux.
    + destruct Hspec as (id & Hin & Herr).
      apply list_elem_of_fmap in Hin as ([id' a] & -> & Hin).
      apply elem_of_map_to_list in Hin.
      destruct (Hparse _ _ Hin) as (u & Hu). simpl in Herr. congruence.
  - intros id a err Hin Hbad. unfold handler.
    unfold ServeMux_Handle, ServeMux in Hspec |- *.
    destruct (handler_range _ _ _ _) as [[[mux idps]|err']|why]; [| |contradiction].
    + destruct Hspec as [Hreg _]. apply elem_of_map_to_list in Hin.
      destruct (Hreg id a Hin) as (u & Hu & _). congruence.
    + destruct Hspec as (id' & Hin' & Herr).
      apply list_elem_of_fmap in Hin' as ([id'' a'] & -> & Hin').
      apply elem_of_map_to_list in Hin'. exists id'', a', err'. auto.
Qed.

(** [Start] never panics either. *)
Lemma Start_returns (s : Server) (bindAddr : string) :
  exists s' errs, Start s bindAddr = Returns (s', errs).
Proof.
  unfold Start. destruct (once s); [eauto |].
  destruct (net_Listen "tcp" bindAddr) as [l|err]; [|eauto].
  destruct (URL_eqb _ _); [destruct (url_Parse _) as [u|err]; [|eauto] |].
  - destruct (handler_returns (set_baseURL (set_listener (set_once s) l) u))
      as [[mux|err] ->]; [destruct (negb _) |]; eauto.
  - destruct (handler_returns (set_listener (set_once s) l))
      as [[mux|err] ->]; [destruct (negb _) |]; eauto.
Qed.

(** C10. A server that [New] has built from options of the package has no
    listener: [Close] on it panics on the nil interface value instead of
    returning an error.  The same holds after a [Start] whose [net.Listen]
    has failed.  Only a [Start] whose [net.Listen] has succeeded leaves a
    listener, and then [Close] returns what closing that listener
    returns. *)
Theorem Close_before_listening_panics (options : list Option) (w w' : World)
    (s : Server) (bindAddr : string) :
  Forall configuration_option options ->
  New options w = (Ok s, w') ->
  Close s = Panics "invalid memory address or nil pointer dereference"
  /\ (forall err, net_Listen "tcp" bindAddr = Err err ->
        exists s', Start s bindAddr = Returns (s', [err])
          /\ Close s' = Panics "invalid memory address or nil pointer dereference")
  /\ (forall l, net_Listen "tcp" bindAddr = Ok l ->
        exists s' errs, Start s bindAddr = Returns (s', errs)
          /\ Close s' = Returns (Listener_Close l)).
Proof.
  intros Hopts HNew.
  destruct (New_listener options w w' s Hopts HNew) as [Hlistener Honce].
  split; [|split].
  - unfold Close. now rewrite Hlistener.
  - intros err Hlisten. unfold Start. rewrite Honce, Hlisten.
    eexists. split; [reflexivity |].
    unfold Close. cbn. now rewrite Hlistener.
  - intros l Hlisten.
    destruct (Start_returns s bindAddr) as (s' & errs & HStart).
    exists s', errs. split; [exact HStart |].
    revert HStart. unfold Start. rewrite Honce, Hlisten.
    destruct (URL_eqb _ _); [destruct (url_Parse _) as [u|err] |].
    + destruct (handler _) as [[mux|err]|why]; [destruct (negb _) | |];
        try discriminate; now intros [= <- <-].
    + now intros [= <- <-].
    + destruct (handler _) as [[mux|err]|why]; [destruct (negb _) | |];
        try discriminate; now intros [= <- <-].
Qed.

End Handler_properties.

(** ** The gob encoding of an authorization state *)

Local Open Scope list_scope.

Lemma to_N_byte_N (n : N) : Byte.to_N (byte_N n) = (n mod 256)%N.
Proof.
  unfold byte_N. destruct (Byte.of_N (n mod 256)) as [b|] eqn:Hb; simpl.
  - now apply Byte.to_of_N.
  - apply Byte.of_N_None_iff in Hb.
    pose proof (N.mod_upper_bound n 256). lia.
Qed.

Lemma length_be_bytes (k : nat) : forall n, length (be_bytes k n) = k.
Proof.
  induction k as [|k IH]; intros n; simpl; [reflexivity |].
  rewrite length_app, IH. simpl. lia.
Qed.

Lemma be_value_snoc (bs : list byte) (b : byte) :
  be_value (bs ++ [b]) = (be_value bs * 256 + Byte.to_N b)%N.
Proof. unfold be_value. now rewrite fold_left_app. Qed.

Lemma be_value_be_bytes (k : nat) :
  forall n, (n < 256 ^ N.of_nat k)%N -> be_value (be_bytes k n) = n.
Proof.
  induction k as [|k IH]; intros n Hn.
  - simpl in *. cbv [be_value fold_left]. lia.
  - cbn [be_bytes]. rewrite be_value_snoc, to_N_byte_N, IH.
    + pose proof (N.div_mod n 256). lia.
    + rewrite Nat2N.inj_succ, N.pow_succ_r' in Hn.
      apply N.Div0.div_lt_upper_bound. lia.
Qed.

(** A [uint64] fits in the bytes that [bytelen] counts, and those are at
    most eight. *)
Lemma bytelen_bounds (x : N) :
  (0 < x < 2 ^ 64)%N ->
  (1 <= bytelen x <= 8)%nat /\ (x < 256 ^ N.of_nat (bytelen x))%N.
Proof.
  intros [Hpos Hlt]. unfold bytelen.
  assert (N.log2 x < 64)%N as Hlog by (apply N.log2_lt_pow2; lia).
  assert (N.log2 x / 8 < 8)%N as Hq by (apply N.Div0.div_lt_upper_bound; lia).
  split; [clear Hlt Hlog; remember (N.log2 x / 8)%N as q; lia |].
  rewrite N2Nat.id.
  change 256%N with (2 ^ 8)%N. rewrite <- N.pow_mul_r.
  apply N.log2_lt_pow2; [lia |].
  pose proof (N.div_mod (N.log2 x) 8) as Hdiv.
  pose proof (N.mod_upper_bound (N.log2 x) 8) as Hmod.
  remember (N.log2 x / 8)%N as q. remember (N.log2 x mod 8)%N as m.
  remember (N.log2 x) as lg. lia.
Qed.

(** Reading back an unsigned integer. *)
Lemma decodeUint_encodeUint (x : N) (rest : list byte) :
  (x < 2 ^ 64)%N -> decodeUint (encodeUint x ++ rest) = Ok (x, rest).
Proof.
  intros Hx. unfold encodeUint.
  destruct (x <=? 127)%N eqn:Hsmall.
  - apply N.leb_le in Hsmall. cbn [app decodeUint].
    rewrite to_N_byte_N, N.mod_small by lia.
    apply N.leb_le in Hsmall. now rewrite Hsmall.
  - apply N.leb_gt in Hsmall.
    destruct (bytelen_bounds x) as [[Hlo Hhi] Hfit]; [lia |].
    cbn [app decodeUint].
    rewrite to_N_byte_N, N.mod_small by lia.
    replace (256 - N.of_nat (bytelen x) <=? 127)%N with false
      by (symmetry; apply N.leb_gt; lia).
    replace (N.to_nat (256 - (256 - N.of_nat (bytelen x)))) with (bytelen x) by lia.
    replace (8 <? bytelen x)%nat with false by (symmetry; apply Nat.ltb_ge; lia).
    replace (length (be_bytes (bytelen x) x ++ rest) <? bytelen x)%nat with false
      by (symmetry; apply Nat.ltb_ge; rewrite length_app, length_be_bytes; lia).
    rewrite take_app_length', drop_app_length' by (now rewrite length_be_bytes).
    now rewrite be_value_be_bytes.
Qed.

Lemma encodeUint_nonempty (x : N) : encodeUint x <> [].
Proof. unfold encodeUint. destruct (x <=? 127)%N; discriminate. Qed.

Lemma decodeInt_type_id (body : list byte) :
  decodeInt (encodeInt id_authorizationState ++ body) = Ok (id_authorizationState, body).
Proof. reflexivity. Qed.

(** Reading back a string or a byte slice. *)
Lemma decode_bytes_gob_bytes (bs rest : list byte) :
  (N.of_nat (length bs) < 2 ^ 64)%N ->
  decode_bytes (gob_bytes bs ++ rest) = Ok (bs, rest).
Proof.
  intros Hlen. unfold decode_bytes, gob_bytes.
  rewrite <- app_assoc, decodeUint_encodeUint by exact Hlen.
  replace (N.of_nat (length (bs ++ rest)) <? N.of_nat (length bs))%N with false
    by (symmetry; apply N.ltb_ge; rewrite length_app; lia).
  rewrite Nat2N.id. now rewrite take_app_length, drop_app_length.
Qed.

Lemma length_list_byte_of_string (s : string) :
  length (list_byte_of_string s) = String.length s.
Proof. induction s as [|c s IH]; simpl; [reflexivity | now f_equal]. Qed.

Lemma decode_bytes_gob_string (s : string) (rest : list byte) :
  (N.of_nat (String.length s) < 2 ^ 64)%N ->
  decode_bytes (gob_string s ++ rest) = Ok (list_byte_of_string s, rest).
Proof.
  intros Hlen. apply decode_bytes_gob_bytes. now rewrite length_list_byte_of_string.
Qed.

Lemma gob_string_nonempty (s : string) (rest : list byte) : gob_string s ++ rest <> [].
Proof.
  unfold gob_string, gob_bytes. pose proof (encodeUint_nonempty (N.of_nat (length (list_byte_of_string s)))).
  destruct (encodeUint _); [congruence | discriminate].
Qed.

(** Reading back the elements of a slice of strings. *)
Lemma decode_strings_concat (l : list string) (rest : list byte) :
  Forall (fun s => (N.of_nat (String.length s) < 2 ^ 64)%N) l ->
  decode_strings (length l) (concat (map gob_string l) ++ rest) = Ok (l, rest).
Proof.
  induction 1 as [|s l Hs _ IH]; [reflexivity |].
  cbn [length map concat decode_strings]. rewrite <- app_assoc.
  pose proof (gob_string_nonempty s (concat (map gob_string l) ++ rest)) as Hne.
  destruct (gob_string s ++ concat (map gob_string l) ++ rest) eqn:Hbuf;
    [congruence |].
  rewrite <- Hbuf, decode_bytes_gob_string, IH by exact Hs.
  now rewrite string_of_list_byte_of_string.
Qed.

Lemma length_concat_gob_string (l : list string) :
  (length l <= length (concat (map gob_string l)))%nat.
Proof.
  induction l as [|s l IH]; simpl; [lia |].
  rewrite length_app.
  assert (1 <= length (gob_string s))%nat; [|lia].
  pose proof (gob_string_nonempty s []) as Hne. rewrite app_nil_r in Hne.
  destruct (gob_string s); [congruence | simpl; lia].
Qed.

Lemma decode_slice_gob_strings (l : list string) (rest : list byte) :
  (N.of_nat (length l) < 2 ^ 64)%N ->
  Forall (fun s => (N.of_nat (String.length s) < 2 ^ 64)%N) l ->
  decode_slice (gob_strings l ++ rest) = Ok (l, rest).
Proof.
  intros Hlen Hl. unfold decode_slice, gob_strings.
  rewrite <- app_assoc, decodeUint_encodeUint by exact Hlen.
  pose proof (length_concat_gob_string l).
  replace (N.of_nat (length (concat (map gob_string l) ++ rest)) <? N.of_nat (length l))%N
    with false by (symmetry; apply N.ltb_ge; rewrite length_app; lia).
  rewrite Nat2N.id. now apply decode_strings_concat.
Qed.

(** A field that is sent is read back into the target. *)
Lemma decodeStruct_step (fuel : nat) (fieldnum field : Z) (e e' : authorizationState)
    (value rest : list byte) :
  (-1 <= fieldnum < field)%Z -> (field <= 5)%Z ->
  decode_field field e (value ++ rest) = Ok (e', rest) ->
  decodeStruct (S fuel) fieldnum e (gob_field (field - fieldnum) value ++ rest)
  = decodeStruct fuel field e' rest.
Proof.
  intros Hnum Hfield Hdecode. cbn [decodeStruct]. unfold gob_field.
  rewrite <- app_assoc, decodeUint_encodeUint by lia.
  replace (Z.to_N (field - fieldnum) =? 0)%N with false
    by (symmetry; apply N.eqb_neq; lia).
  replace (fieldnum + Z.of_N (Z.to_N (field - fieldnum)))%Z with field by lia.
  now rewrite Hdecode.
Qed.

Lemma decodeStruct_end (fuel : nat) (fieldnum : Z) (e : authorizationState) :
  decodeStruct (S fuel) fieldnum e [x00] = Ok e.
Proof. reflexivity. Qed.

Lemma decode_field_ClientId (e : authorizationState) (s : string) (rest : list byte) :
  fits_uint64 (String.length s) ->
  decode_field 0 e (gob_string s ++ rest)
  = Ok (mkAuthorizationState s (RedirectURI e) (ResponseType e) (Scope e) (State e)
          (IdPState e), rest).
Proof.
  intros Hs. unfold decode_field. cbn [Z.eqb].
  now rewrite decode_bytes_gob_string, string_of_list_byte_of_string.
Qed.

Lemma decode_field_RedirectURI (e : authorizationState) (s : string) (rest : list byte) :
  fits_uint64 (String.length s) ->
  decode_field 1 e (gob_string s ++ rest)
  = Ok (mkAuthorizationState (ClientId e) s (ResponseType e) (Scope e) (State e)
          (IdPState e), rest).
Proof.
  intros Hs. unfold decode_field. cbn [Z.eqb Pos.eqb].
  now rewrite decode_bytes_gob_string, string_of_list_byte_of_string.
Qed.

Lemma decode_field_ResponseType (e : authorizationState) (s : string) (rest : list byte) :
  fits_uint64 (String.length s) ->
  decode_field 2 e (gob_string s ++ rest)
  = Ok (mkAuthorizationState (ClientId e) (RedirectURI e) s (Scope e) (State e)
          (IdPState e), rest).
Proof.
  intros Hs. unfold decode_field. cbn [Z.eqb Pos.eqb].
  now rewrite decode_bytes_gob_string, string_of_list_byte_of_string.
Qed.

Lemma decode_field_Scope (e : authorizationState) (l : list string) (rest : list byte) :
  fits_uint64 (length l) -> Forall (fun s => fits_uint64 (String.length s)) l ->
  decode_field 3 e (gob_strings l ++ rest)
  = Ok (mkAuthorizationState (ClientId e) (RedirectURI e) (ResponseType e) l (State e)
          (IdPState e), rest).
Proof.
  intros Hlen Hl. unfold decode_field. cbn [Z.eqb Pos.eqb].
  now rewrite decode_slice_gob_strings.
Qed.

Lemma decode_field_State (e : authorizationState) (s : string) (rest : list byte) :
  fits_uint64 (String.length s) ->
  decode_field 4 e (gob_string s ++ rest)
  = Ok (mkAuthorizationState (ClientId e) (RedirectURI e) (ResponseType e) (Scope e) s
          (IdPState e), rest).
Proof.
  intros Hs. unfold decode_field. cbn [Z.eqb Pos.eqb].
  now rewrite decode_bytes_gob_string, string_of_list_byte_of_string.
Qed.

Lemma decode_field_IdPState (e : authorizationState) (bs rest : list byte) :
  fits_uint64 (length bs) ->
  decode_field 5 e (gob_bytes bs ++ rest)
  = Ok (mkAuthorizationState (ClientId e) (RedirectURI e) (ResponseType e) (Scope e)
          (State e) bs, rest).
Proof.
  intros Hs. unfold decode_field. cbn [Z.eqb Pos.eqb].
  now rewrite decode_bytes_gob_bytes.
Qed.

Ltac decode_sent_field :=
  rewrite <- ?app_assoc;
  erewrite decodeStruct_step;
  [ | lia | lia
    | first [ apply decode_field_ClientId | apply decode_field_RedirectURI
            | apply decode_field_ResponseType | apply decode_field_Scope
            | apply decode_field_State | apply decode_field_IdPState ];
      assumption ].

(** Decoding the struct that [gob_struct] writes, into a zero target, gives
    the state back: the fields that were sent are set, and the fields that
    were not sent were zero. *)
Lemma decodeStruct_gob_struct (a : authorizationState) :
  state_fits a ->
  decodeStruct 7 (-1) authorizationState_zero (gob_struct a) = Ok a.
Proof.
  destruct a as [c r t sc st idp].
  intros (Hc & Hr & Ht & Hsc & Hscs & Hst & Hidp). cbn in Hc, Hr, Ht, Hsc, Hscs, Hst, Hidp.
  unfold gob_struct, send_field, authorizationState_zero.
  cbn [ClientId RedirectURI ResponseType Scope State IdPState].
  destruct c, r, t, sc, st, idp;
    cbn [String.length length Nat.eqb app];
    repeat decode_sent_field; reflexivity.
Qed.

Lemma length_gob_field (delta : Z) (value : list byte) :
  (length value <= length (gob_field delta value))%nat.
Proof. unfold gob_field. rewrite length_app. lia. Qed.

Lemma length_gob_bytes (bs : list byte) : (length bs <= length (gob_bytes bs))%nat.
Proof. unfold gob_bytes. rewrite length_app. lia. Qed.

Lemma length_gob_string (s : string) : (String.length s <= length (gob_string s))%nat.
Proof.
  unfold gob_string. rewrite <- (length_list_byte_of_string s). apply length_gob_bytes.
Qed.

Lemma length_gob_strings (l : list string) :
  (length l <= length (gob_strings l))%nat
  /\ Forall (fun s => (String.length s <= length (gob_strings l))%nat) l.
Proof.
  unfold gob_strings. split.
  - rewrite length_app. pose proof (length_concat_gob_string l). lia.
  - apply Forall_forall. intros s Hin. rewrite length_app.
    assert (String.length s <= length (concat (map gob_string l)))%nat; [|lia].
    induction l as [|s' l IH]; [inversion Hin |].
    cbn [map concat]. rewrite length_app.
    apply elem_of_cons in Hin as [->|Hin].
    + pose proof (length_gob_string s'). lia.
    + specialize (IH Hin). lia.
Qed.

Lemma send_field_ge (fieldnum field : Z) (n : nat) (value b : list byte) (fieldnum' : Z) :
  (n <= length value)%nat ->
  send_field fieldnum field (n =? 0)%nat value = (b, fieldnum') ->
  (n <= length b)%nat.
Proof.
  intros Hn. unfold send_field. destruct (n =? 0)%nat eqn:Hzero; intros [= <- <-].
  - apply Nat.eqb_eq in Hzero. lia.
  - pose proof (length_gob_field (field - fieldnum) value). lia.
Qed.

(** Every length inside a state is below the length of its encoding. *)
Lemma gob_struct_fits (a : authorizationState) :
  (N.of_nat (length (gob_struct a)) < 2 ^ 64)%N -> state_fits a.
Proof.
  destruct a as [c r t sc st idp]. unfold gob_struct, state_fits, fits_uint64.
  cbn [ClientId RedirectURI ResponseType Scope State IdPState].
  destruct (send_field _ 0 _ _) as [b0 f0] eqn:E0.
  destruct (send_field _ 1 _ _) as [b1 f1] eqn:E1.
  destruct (send_field _ 2 _ _) as [b2 f2] eqn:E2.
  destruct (send_field _ 3 _ _) as [b3 f3] eqn:E3.
  destruct (send_field _ 4 _ _) as [b4 f4] eqn:E4.
  destruct (send_field _ 5 _ _) as [b5 f5] eqn:E5.
  rewrite !length_app. cbn [length]. intros Hlen.
  apply send_field_ge in E0; [|apply length_gob_string].
  apply send_field_ge in E1; [|apply length_gob_string].
  apply send_field_ge in E2; [|apply length_gob_string].
  apply send_field_ge in E4; [|apply length_gob_string].
  apply send_field_ge in E5; [|apply length_gob_bytes].
  destruct (length_gob_strings sc) as [Hsc Hscs].
  assert (sc <> [] -> length (gob_strings sc) <= length b3)%nat as Hb3.
  { intros Hne. destruct sc; [congruence |]. unfold send_field in E3.
    cbn [length Nat.eqb] in E3. injection E3 as <- <-. apply length_gob_field. }
  repeat split; try lia.
  - destruct sc; [simpl; lia |]. specialize (Hb3 ltac:(discriminate)). lia.
  - destruct sc; [constructor |]. specialize (Hb3 ltac:(discriminate)).
    eapply Forall_impl; [exact Hscs |]. cbv beta. intros s' Hs'. lia.
Qed.

Lemma strip_prefix_app (p buf : list byte) : strip_prefix p (p ++ buf) = Some buf.
Proof.
  induction p as [|x p IH]; [reflexivity |].
  cbn [app strip_prefix]. now rewrite (Byte.byte_dec_lb eq_refl).
Qed.

(** What a new encoder writes for a state, a new decoder reads into a zero
    target as that state. *)
Lemma gob_Decode_gob_Encode (a : authorizationState) (encoded : list byte) :
  gob_Encode a = Ok encoded ->
  gob_Decode encoded authorizationState_zero = Ok a.
Proof.
  unfold gob_Encode.
  destruct (tooBig <=? _)%N eqn:Hbig; [discriminate |]. intros Heq.
  assert (encoded = gob_typedefs ++ gob_message id_authorizationState (gob_struct a))
    as -> by congruence.
  clear Heq. apply N.leb_gt in Hbig. rewrite length_app in Hbig.
  assert (2 ^ 33 < 2 ^ 64)%N as Hpow by reflexivity.
  change tooBig with (2 ^ 33)%N in Hbig.
  unfold gob_Decode, gob_message. rewrite strip_prefix_app.
  cbv zeta. rewrite decodeUint_encodeUint by (rewrite length_app; lia).
  replace (tooBig <=? _)%N with false
    by (symmetry; apply N.leb_gt; change tooBig with (2 ^ 33)%N; rewrite length_app; lia).
  rewrite N.ltb_irrefl, Nat2N.id, firstn_all, decodeInt_type_id.
  change (id_authorizationState =? id_authorizationState)%Z with true. cbv iota.
  apply decodeStruct_gob_struct, gob_struct_fits. lia.
Qed.

Section StateStorage_properties.
Context `{StateKeeper}.

(** C3. With an engine that returns exactly what was persisted, a state
    that [persist] has stored under a key without error comes back from
    [restore] of that key, into a zero target, equal to what was stored,
    on every field: ClientId, RedirectURI, ResponseType, Scope, State and
    IdPState. *)
Theorem restore_persist (store0 store1 : stateStorage) (key : string)
    (s : authorizationState) :
  StateKeeper_faithful ->
  persist store0 key s = (store1, None) ->
  exists store2,
    restore store1 key authorizationState_zero = (store2, s, None).
Proof.
  intros Hfaithful. unfold persist.
  destruct (gob_Encode s) as [encoded|err] eqn:Hencode; [|discriminate].
  destruct (Persist _ _ _ _) as [engine1 err] eqn:Hpersist.
  intros [= <- ->].
  destruct (Hfaithful _ _ _ _ _ Hpersist) as [engine2 Hrestore].
  unfold restore. cbn [engine maxLifetime]. rewrite Hrestore.
  rewrite list_byte_of_string_of_list_byte, (gob_Decode_gob_Encode s encoded Hencode).
  eauto.
Qed.

(** [persist] fails only when the message is too big for gob or the engine
    reports an error. *)
Lemma persist_succeeds (store0 : stateStorage) (key : string) (s : authorizationState)
    (engine1 : Engine) (encoded : list byte) :
  gob_Encode s = Ok encoded ->
  Persist (engine store0) key (string_of_list_byte encoded) (maxLifetime store0)
  = (engine1, None) ->
  persist store0 key s = (mkStateStorage engine1 (maxLifetime store0), None).
Proof. intros Hencode Hpersist. unfold persist. now rewrite Hencode, Hpersist. Qed.

End StateStorage_properties.

(** * Further properties *)

Local Open Scope string_scope.

(** ** The Google adapter: edges and composition *)

(** Parsing the state of [AuthnRedirect] gives both entries back. *)
Lemma ParseQuery_state_entries (authzRef cb : string) :
  exists stateData,
    ParseQuery (Values_Encode (Values_Set (Values_Set [] "ref" authzRef) "redirect_uri" cb))
    = (stateData, None)
    /\ Values_Get stateData "ref" = authzRef
    /\ Values_Get stateData "redirect_uri" = cb.
Proof.
  destruct (ParseQuery_Values_Encode
              (Values_Set (Values_Set [] "ref" authzRef) "redirect_uri" cb))
    as [Hindex Herr]; [apply Values_Set_wf, Values_Set_wf, Values_wf_nil |].
  destruct (ParseQuery _) as [stateData err]. cbn [fst snd] in Hindex, Herr.
  exists stateData. split; [now rewrite Herr |].
  unfold Values_Get. now rewrite !Hindex.
Qed.

(** A byte that the decoder does not read makes the decoding fail, wherever
    it stands. *)
Lemma base64_decode_illegal (src : string) :
  has_illegal_byte src = true ->
  forall si dbuf, exists e, base64_decode src si dbuf = Err e.
Proof.
  induction src as [|c src IH]; [discriminate |].
  cbn [has_illegal_byte base64_decode]. unfold base64_illegal.
  intros Hbad si dbuf.
  destruct (decodeMap c) as [out|].
  - cbn [orb] in Hbad.
    destruct (List.length dbuf =? 3)%nat.
    + destruct (IH Hbad (S si) []) as [e ->]. eauto.
    + apply (IH Hbad).
  - destruct (Ascii.eqb c "010" || Ascii.eqb c "013"); [|eauto].
    apply (IH Hbad).
Qed.

Section GoogleIDP_further.
Context `{net_url} `{encoding_json}.

(** X1. [AuthnCallback] never panics: [state[0]], [authzCode[0]] and
    [parts[1]] are in range on every request and every answer of the token
    endpoint. *)
Theorem AuthnCallback_never_panics (g : googleIDP) (r : Request) :
  exists ref user err, AuthnCallback g r = Returns (ref, user, err).
Proof.
  unfold AuthnCallback.
  destruct (Values_index _ "state") as [[|state0 vs]|] eqn:Hstate; [| |eauto].
  { now apply URL_Query_filled in Hstate. }
  destruct (ParseQuery state0) as [stateData [e|]]; [eauto |].
  destruct (Values_index _ "code") as [[|code0 cs]|] eqn:Hcode; [| |eauto].
  { now apply URL_Query_filled in Hcode. }
  cbv zeta. destruct (PostForm _ _ _) as [resp|e]; [|eauto].
  destruct (negb _); [eauto |].
  destruct (Unmarshal_googleIDPResponseData _) as [authData|]; [|eauto].
  destruct (strings_Split _ _) as [|p0 [|p1 [|p2 [|p3 ps]]]]; cbn; eauto.
  destruct (RawURLEncoding_DecodeString p1); [|eauto].
  destruct (Unmarshal_googleIDToken _); eauto.
Qed.

(** X2. A callback without a [state] parameter, or with one that does not
    parse as a query, gets the empty reference, no user and a nil error, and
    the token endpoint is not asked. *)
Theorem AuthnCallback_unusable_state (g : googleIDP) (r : Request) :
  (Values_index (URL_Query (Request_URL r)) "state" = None
   \/ exists vs e,
        Values_index (URL_Query (Request_URL r)) "state" = Some vs
        /\ (ParseQuery (hd "" vs)).2 = Some e) ->
  forall c, AuthnCallback (mkGoogleIDP (clientID g) (clientSecret g) c) r
            = Returns ("", None, None).
Proof.
  intros Hstate c. unfold AuthnCallback.
  destruct Hstate as [-> | (vs & e & -> & Herr)]; [reflexivity |].
  destruct vs as [|state0 vs]; simpl in Herr.
  - discriminate.
  - destruct (ParseQuery state0) as [stateData err]. simpl in Herr. now subst err.
Qed.

(** X3. [AuthnRedirect] fails only with the error of parsing the constant
    [googleAuthURL]. Otherwise its URL has the scheme, host and path of
    that constant, and its query, parsed again, holds exactly one value for
    each of [client_id], [response_type], [scope], [redirect_uri] and
    [state] and, for any other key, what the constant's query held: the
    client secret is not in it. *)
Theorem AuthnRedirect_URL (g : googleIDP) (callbackURL : URL) (authzRef : string) :
  match url_Parse googleAuthURL with
  | Err err => AuthnRedirect g callbackURL authzRef = Err err
  | Ok authURL =>
      exists u,
        AuthnRedirect g callbackURL authzRef = Ok u
        /\ Scheme u = Scheme authURL /\ Host u = Host authURL /\ Path u = Path authURL
        /\ forall k,
             Values_index (URL_Query u) k
             = if String.eqb k "state" then
                 Some [Values_Encode
                         (Values_Set (Values_Set [] "ref" authzRef) "redirect_uri"
                            (URL_String callbackURL))]
               else if String.eqb k "redirect_uri" then Some [URL_String callbackURL]
               else if String.eqb k "scope" then Some ["openid email"]
               else if String.eqb k "response_type" then Some ["code"]
               else if String.eqb k "client_id" then Some [clientID g]
               else Values_index (URL_Query authURL) k
  end.
Proof.
  unfold AuthnRedirect.
  destruct (url_Parse googleAuthURL) as [authURL|err]; [|reflexivity].
  eexists. split; [reflexivity |]. cbn [Scheme Host Path]. repeat split.
  intros k. unfold URL_Query at 1. cbn [RawQuery].
  match goal with
  | |- Values_index (ParseQuery (Values_Encode ?v)).1 _ = _ =>
      destruct (ParseQuery_Values_Encode v) as [-> _]
  end.
  - repeat apply Values_Set_wf. apply URL_Query_wf.
  - unfold Values_Set. rewrite !Values_index_assign.
    rewrite !(String.eqb_sym _ k).
    repeat (destruct (String.eqb k _); [reflexivity |]). reflexivity.
Qed.

(** X4. From the redirect to the token request: for a callback that carries
    the state parameter of the URL that [AuthnRedirect] built for
    [callbackURL], and a code, the form posted to [googleTokenURL] holds the
    first value of [code], the client id and secret, the grant type
    [authorization_code], and as [redirect_uri] the very string of
    [callbackURL]. *)
Theorem token_request_after_redirect (g : googleIDP) (callbackURL u : URL)
    (authzRef : string) (r : Request) (cs : list string) :
  AuthnRedirect g callbackURL authzRef = Ok u ->
  Values_index (URL_Query (Request_URL r)) "state" = Values_index (URL_Query u) "state" ->
  Values_index (URL_Query (Request_URL r)) "code" = Some cs ->
  exists stateData,
    Values_Get stateData "ref" = authzRef
    /\ AuthnCallback g r
       = after_token_response stateData
           (PostForm (client g) googleTokenURL
              [("code", [hd "" cs]); ("client_id", [clientID g]);
               ("client_secret", [clientSecret g]);
               ("redirect_uri", [URL_String callbackURL]);
               ("grant_type", ["authorization_code"])]).
Proof.
  intros Hredirect Hsame Hcode.
  rewrite (AuthnRedirect_state g callbackURL u authzRef Hredirect) in Hsame.
  destruct (ParseQuery_state_entries authzRef (URL_String callbackURL))
    as (stateData & Hparse & Href & Huri).
  exists stateData. split; [exact Href |].
  rewrite (AuthnCallback_after_state g r _ _ Hsame Hparse), Hcode.
  unfold token_form. now rewrite Huri.
Qed.

(** X5. [AuthnCallback] never returns a user together with an error: with
    an error come the empty reference and no user, and a user comes with a
    nil error and carries the one role [CDE_PLUS]. *)
Theorem AuthnCallback_user_or_error (g : googleIDP) (r : Request) (ref : string)
    (user : option User) (err : option error) :
  AuthnCallback g r = Returns (ref, user, err) ->
  (forall e, err = Some e -> ref = "" /\ user = None)
  /\ (forall usr, user = Some usr -> err = None /\ Data usr = ["CDE_PLUS"]).
Proof.
  unfold AuthnCallback.
  destruct (Values_index _ "state") as [[|state0 vs]|]; try discriminate.
  2: { intros [= <- <- <-]. split; [discriminate | discriminate]. }
  destruct (ParseQuery state0) as [stateData [e|]].
  { intros [= <- <- <-]. split; discriminate. }
  destruct (Values_index _ "code") as [[|code0 cs]|]; try discriminate.
  2: { intros [= <- <- <-]. split; discriminate. }
  cbv zeta. destruct (PostForm _ _ _) as [resp|e].
  2: { intros [= <- <- <-]. split; [now intros | discriminate]. }
  destruct (negb _).
  { intros [= <- <- <-]. split; discriminate. }
  destruct (Unmarshal_googleIDPResponseData _) as [authData|].
  2: { intros [= <- <- <-]. split; discriminate. }
  destruct (negb _).
  { intros [= <- <- <-]. split; discriminate. }
  destruct (_ !! 1%nat); [|discriminate].
  destruct (RawURLEncoding_DecodeString _).
  2: { intros [= <- <- <-]. split; discriminate. }
  destruct (Unmarshal_googleIDToken _).
  2: { intros [= <- <- <-]. split; discriminate. }
  intros [= <- <- <-]. split; [discriminate |]. now intros usr [= <-].
Qed.

(** X6. The adapter asks nothing but the token URL: two HTTP clients that
    answer alike at [googleTokenURL] give the same outcome on every
    callback, whatever they answer elsewhere. *)
Theorem AuthnCallback_asks_token_URL_only (id secret : string) (c1 c2 : http_Client)
    (r : Request) :
  (forall form, PostForm c1 googleTokenURL form = PostForm c2 googleTokenURL form) ->
  AuthnCallback (mkGoogleIDP id secret c1) r = AuthnCallback (mkGoogleIDP id secret c2) r.
Proof.
  intros Hsame. unfold AuthnCallback. cbn [client clientID clientSecret].
  destruct (Values_index _ "state") as [[|state0 vs]|]; try reflexivity.
  destruct (ParseQuery state0) as [stateData [e|]]; [reflexivity |].
  destruct (Values_index _ "code") as [[|code0 cs]|]; try reflexivity.
  cbv zeta. now rewrite Hsame.
Qed.

(** X7. The claims segment is read as unpadded base64url: when it holds a
    byte outside [A-Z a-z 0-9 - _] that is no line break, a padding [=]
    for one, the callback ends without user and without error, whatever the
    segment would decode to otherwise. *)
Theorem AuthnCallback_illegal_claims_segment (g : googleIDP) (r : Request)
    (vs cs : list string) (stateData : Values) (resp : Response)
    (authData : googleIDPResponseData) (header claims signature : string) :
  Values_index (URL_Query (Request_URL r)) "state" = Some vs ->
  ParseQuery (hd "" vs) = (stateData, None) ->
  Values_index (URL_Query (Request_URL r)) "code" = Some cs ->
  PostForm (client g) googleTokenURL (token_form g (hd "" cs) stateData) = Ok resp ->
  StatusCode resp = 200%Z ->
  Unmarshal_googleIDPResponseData (Body resp) = Ok authData ->
  strings_Split (IDToken authData) "." = [header; claims; signature] ->
  has_illegal_byte claims = true ->
  AuthnCallback g r = Returns (Values_Get stateData "ref", None, None).
Proof.
  intros Hstate Hparse Hcode Hpost Hstatus Hbody Hparts Hbad.
  rewrite (AuthnCallback_after_state g r vs stateData Hstate Hparse), Hcode.
  unfold after_token_response.
  rewrite Hpost, Hstatus, Hbody, Hparts. simpl.
  unfold RawURLEncoding_DecodeString.
  now destruct (base64_decode_illegal claims Hbad 0%nat []) as [e ->].
Qed.

End GoogleIDP_further.

(** ** The server: options, warnings, handler and start *)

Lemma URL_eqb_eq (a b : URL) : URL_eqb a b = true <-> a = b.
Proof.
  unfold URL_eqb. rewrite !andb_true_iff, !String.eqb_eq.
  destruct a, b; cbn. split; [intros [[[-> ->] ->] ->]; reflexivity |].
  now intros [= -> -> -> ->].
Qed.

Section Server_further.
Context `{server_parts} `{math_rand} `{net_url}.
Context `{!net_http ServeMux}.

Lemma apply_options_app (options1 options2 : list Option) (s : Server) :
  apply_options (options1 ++ options2)%list s
  = match apply_options options1 s with
    | Ok s1 => apply_options options2 s1
    | Err err => Err err
    end.
Proof.
  revert s. induction options1 as [|o options1 IH]; intros s; [reflexivity |].
  cbn [app apply_options]. destruct (o s) as [s' [err|]]; [reflexivity | apply IH].
Qed.

(** X8. [New] over options of the package never fails: it returns an
    initialized server that has no listener and has not been started. *)
Theorem New_package_options_succeed (options : list Option) (w : World) :
  Forall configuration_option options ->
  exists s w',
    New options w = (Ok s, w')
    /\ initialized s = true /\ listener s = None /\ once s = false.
Proof.
  intros Hopts.
  destruct (apply_options_building options Hopts Server_fresh eq_refl)
    as (s0 & Happly & Hl & Ho & _).
  destruct (New_after_options options w s0 Happly)
    as (s & w' & HNew & Hinit & _ & _ & _ & _ & _ & _ & Hl' & Ho').
  exists s, w'. split; [exact HNew |]. split; [exact Hinit |].
  split; [rewrite Hl', Hl | rewrite Ho', Ho]; reflexivity.
Qed.

(** X9. The last option of [New] has the last word: after any options of the
    package, a final [BaseURL], [Clients], [AccessTokenConfig] or [IdP]
    decides its field of the server; a final [Storage] or [AuthzProvider]
    decides its field when its argument is not nil, and with a nil argument
    the field gets the default of [New]; with a final [AccessTokenConfig]
    the random source is left alone. *)
Theorem New_last_option_decides (options : list Option) (o : Option) (w w' : World)
    (s : Server) :
  Forall configuration_option options ->
  New (options ++ [o])%list w = (Ok s, w') ->
  (forall u, o = BaseURL u -> baseURL s = u)
  /\ (forall st, o = Storage st -> store s = Some (default make_transientMap st))
  /\ (forall m, o = Clients m -> clientMap s = m)
  /\ (forall p, o = AuthzProvider p -> authz s = Some (default new_emptyScopeSet p))
  /\ (forall secret lifetime issuer,
        o = AccessTokenConfig secret lifetime issuer ->
        accessTokenEnc s = Some (newAccessTokenEncoder secret lifetime issuer)
        /\ rand_source w' = rand_source w)
  /\ (forall id a, o = IdP id a -> authn s !! id = Some a).
Proof.
  intros Hopts HNew.
  destruct (apply_options_building options Hopts Server_fresh eq_refl)
    as (s1 & Happly & _ & _ & Hinit).
  assert (forall s0, o s1 = (s0, None) ->
                     apply_options (options ++ [o])%list Server_fresh = Ok s0) as Hlast.
  { intros s0 Ho. rewrite apply_options_app, Happly. cbn. now rewrite Ho. }
  assert (forall s0, o s1 = (s0, None) ->
            accessTokenEnc s
            = Some (default (newAccessTokenEncoder (rand_Read (rand_source w) 16).1
                               36000 "goauth2") (accessTokenEnc s0))
            /\ store s = Some (default make_transientMap (store s0))
            /\ authz s = Some (default new_emptyScopeSet (authz s0))
            /\ authn s = (if (size (authn s0) =? 0)%nat
                          then <["anonymous" := new_anonymousIdP]> (authn s0)
                          else authn s0)
            /\ baseURL s = baseURL s0 /\ clientMap s = clientMap s0
            /\ rand_source w'
               = (if accessTokenEnc s0 is Some _ then rand_source w
                  else (rand_Read (rand_source w) 16).2)) as Hfields.
  { intros s0 Ho. specialize (Hlast s0 Ho).
    destruct (New_after_options _ w s0 Hlast)
      as (s' & w'' & HNew' & _ & Henc & Hstore & Hauthz & Hauthn & Hbase & Hcm & _).
    pose proof (New_rand_source_after_options _ w w' s s0 Hlast HNew) as Hworld.
    rewrite HNew in HNew'. injection HNew' as <- <-.
    now repeat split. }
  clear Hlast Happly. destruct s1 as [bu li enc st az an cm on ini].
  cbn in Hinit. subst ini.
  split; [|split; [|split; [|split; [|split]]]].
  - intros u ->.
    now destruct (Hfields _ eq_refl) as (_ & _ & _ & _ & -> & _).
  - intros st' ->.
    now destruct (Hfields _ eq_refl) as (_ & -> & _).
  - intros m' ->.
    now destruct (Hfields _ eq_refl) as (_ & _ & _ & _ & _ & -> & _).
  - intros p' ->.
    now destruct (Hfields _ eq_refl) as (_ & _ & -> & _).
  - intros secret lifetime issuer ->.
    now destruct (Hfields _ eq_refl) as (-> & _ & _ & _ & _ & _ & ->).
  - intros id a' ->.
    destruct (Hfields _ eq_refl) as (_ & _ & _ & -> & _). cbn [authn].
    destruct (size _ =? 0)%nat eqn:Hsize.
    + apply Nat.eqb_eq, map_size_empty_iff in Hsize.
      exfalso. apply (insert_non_empty _ _ _ Hsize).
    + apply lookup_insert_eq.
Qed.

(** X10. [New] stops at the first option that returns an error: it returns
    that error and no server, and neither warns nor reads the random
    source, whatever options follow. *)
Theorem New_first_failing_option (options1 options2 : list Option) (o : Option)
    (w : World) (s1 s' : Server) (err : error) :
  apply_options options1 Server_fresh = Ok s1 ->
  o s1 = (s', Some err) ->
  New (options1 ++ o :: options2)%list w = (Err err, w).
Proof.
  intros Happly Ho. unfold New.
  rewrite apply_options_app, Happly. cbn [apply_options]. now rewrite Ho.
Qed.

(** X11. The warnings of [New]: when the options succeed, [New] logs one
    warning for each part that they have left unset, in the order encoder,
    store, authorization provider, IdP, and nothing else; it reads sixteen
    bytes from the random source when the encoder is unset and leaves the
    source alone otherwise.  A server with all four parts is built in
    silence. *)
Theorem New_warns_for_each_default (options : list Option) (w : World) (s0 : Server) :
  apply_options options Server_fresh = Ok s0 ->
  exists s,
    New options w
    = (Ok s,
       mkWorld
         (if accessTokenEnc s0 is Some _ then rand_source w
          else (rand_Read (rand_source w) 16).2)
         (log_lines w
          ++ New_warnings (bool_decide (is_Some (accessTokenEnc s0)))
               (bool_decide (is_Some (store s0)))
               (bool_decide (is_Some (authz s0)))
               (negb (size (authn s0) =? 0)%nat))%list).
Proof.
  intros Hopts. unfold New, New_warnings, log_Println. rewrite Hopts.
  destruct w as [src lines].
  destruct s0 as [bu li enc st az an cm on ini]; cbn [accessTokenEnc].
  destruct enc as [enc|]; cbn;
    [|destruct (rand_Read src 16) as [secret src']; cbn];
    destruct st as [st|]; cbn; destruct az as [az|]; cbn;
    destruct (size an =? 0)%nat; cbn;
    rewrite <- ?app_assoc; cbn; rewrite ?app_nil_r; eauto.
Qed.

End Server_further.

Section Handler_further.
Context `{server_parts} `{math_rand} `{net_url}.
Context `{!net_http ServeMux}.

(** The loop over the IdPs keeps the mux and the map of IdP handlers in
    step: what it adds to the one under [/authorize/<id>] it adds to the
    other under [id], and it adds nothing else. *)
Lemma handler_range_idps (entries : list (string * Authn)) (s : Server) :
  forall (mux mux' : ServeMux) (idps idps' : gmap string idpHandler),
    handler_range entries s mux idps = Returns (Ok (mux', idps')) ->
    (forall id, Handler_idp <$> idps !! id = mux !! ("/" ++ "authorize/" ++ id)) ->
    (forall id, Handler_idp <$> idps' !! id = mux' !! ("/" ++ "authorize/" ++ id))
    /\ (forall id, is_Some (idps' !! id) -> is_Some (idps !! id) \/ id ∈ entries.*1)
    /\ (forall p, is_Some (mux' !! p) ->
          is_Some (mux !! p)
          \/ exists id, id ∈ entries.*1 /\ p = "/" ++ "authorize/" ++ id).
Proof.
  unfold ServeMux.
  induction entries as [|[id0 a0] entries IH]; intros mux mux' idps idps' Hrange Hstep.
  - cbn in Hrange. injection Hrange as <- <-. auto.
  - cbn [handler_range] in Hrange.
    destruct (URL_Parse (baseURL s) ("authorize/" ++ id0)) as [u|err]; [|discriminate].
    unfold ServeMux_Handle, ServeMux in Hrange.
    destruct (mux !! ("/" ++ "authorize/" ++ id0)); [discriminate |].
    apply IH in Hrange as (Hstep' & Hidps & Hmux).
    + split; [exact Hstep' |]. rewrite fmap_cons. cbn [fst]. split.
      * intros id Hid. destruct (Hidps id Hid) as [Hold|Hin].
        -- destruct (decide (id = id0)) as [->|Hne].
           ++ right. apply list_elem_of_here.
           ++ left. now rewrite lookup_insert_ne in Hold.
        -- right. now apply list_elem_of_further.
      * intros p Hp. destruct (Hmux p Hp) as [Hold|(id & Hin & ->)].
        -- destruct (decide (p = "/" ++ "authorize/" ++ id0)) as [->|Hne].
           ++ right. exists id0. split; [apply list_elem_of_here | reflexivity].
           ++ left. now rewrite lookup_insert_ne in Hold.
        -- right. exists id. split; [now apply list_elem_of_further | reflexivity].
    + intros id. destruct (decide (id = id0)) as [->|Hne].
      * now rewrite !lookup_insert_eq.
      * rewrite !lookup_insert_ne; [apply Hstep | |congruence].
        intros Heq. apply authorize_path_inj in Heq. congruence.
Qed.

(** X12. [handler] never panics on a double registration, and it fails
    only when the reference [authorize/<id>] of a registered IdP does not
    parse against the base URL, with the error of that parse; when it
    returns a mux the reference of every registered IdP has parsed. *)
Theorem handler_fails_only_on_reference (s : Server) :
  match handler s with
  | Panics _ => False
  | Returns (Err err) =>
      exists id a, authn s !! id = Some a
                   /\ URL_Parse (baseURL s) ("authorize/" ++ id) = Err err
  | Returns (Ok mux) =>
      forall id a, authn s !! id = Some a ->
        exists u, URL_Parse (baseURL s) ("authorize/" ++ id) = Ok u
  end.
Proof.
  unfold handler.
  pose proof (handler_range_spec (map_to_list (authn s)) s ∅ ∅
                (NoDup_fst_map_to_list _) (fun _ _ => lookup_empty _)) as Hspec.
  unfold ServeMux_Handle, ServeMux in Hspec |- *.
  destruct (handler_range _ _ _ _) as [[[mux idps]|err]|why]; [| |contradiction].
  - destruct Hspec as [Hreg Hframe].
    rewrite Hframe, lookup_empty by (intros id _; apply authorize_path_long).
    intros id a Hin. apply elem_of_map_to_list in Hin.
    destruct (Hreg id a Hin) as (u & Hu & _). eauto.
  - destruct Hspec as (id & Hin & Herr).
    apply list_elem_of_fmap in Hin as ([id' a] & -> & Hin).
    apply elem_of_map_to_list in Hin. eauto.
Qed.

(** X13. The mux that [handler] returns holds the authorization handler
    under [/authorize], built from the client map, the authorization
    provider and a map of IdP handlers; that map has exactly the registered
    IdP identifiers as keys and holds under [id] the very handler that the
    mux holds under [/authorize/<id>]; and the mux has no pattern besides
    [/authorize] and [/authorize/<id>] for the registered [id]. *)
Theorem handler_mux_contents (s : Server) (mux : ServeMux) :
  handler s = Returns (Ok mux) ->
  exists idps,
    mux !! "/authorize"
    = Some (Handler_authorization
              (mkAuthorizationHandler (clientMap s) (authz s) idps))
    /\ (forall id, Handler_idp <$> idps !! id = mux !! ("/authorize/" ++ id))
    /\ (forall id, is_Some (idps !! id) <-> is_Some (authn s !! id))
    /\ (forall p, is_Some (mux !! p) ->
          p = "/authorize"
          \/ exists id, is_Some (authn s !! id) /\ p = "/authorize/" ++ id).
Proof.
  unfold handler.
  pose proof (handler_range_spec (map_to_list (authn s)) s ∅ ∅
                (NoDup_fst_map_to_list _) (fun _ _ => lookup_empty _)) as Hspec.
  pose proof (handler_range_idps (map_to_list (authn s)) s ∅) as Hidps.
  unfold ServeMux_Handle, ServeMux in Hspec, Hidps |- *.
  destruct (handler_range _ _ _ _) as [[[mux0 idps]|err]|why] eqn:Hrange;
    [|discriminate|contradiction].
  destruct Hspec as [Hreg Hframe].
  destruct (Hidps mux0 ∅ idps Hrange) as (Hstep & Hkeys & Hpatterns).
  { intros id. now rewrite !lookup_empty. }
  assert (forall id, id ∈ (map_to_list (authn s)).*1 -> is_Some (authn s !! id))
    as Hregistered.
  { intros id Hin. apply list_elem_of_fmap in Hin as ([id' a] & -> & Hin).
    apply elem_of_map_to_list in Hin. cbn. eauto. }
  rewrite Hframe, lookup_empty by (intros id _; apply authorize_path_long).
  intros [= <-]. exists idps. split; [apply lookup_insert_eq |]. split; [|split].
  - intros id. rewrite lookup_insert_ne by apply authorize_path_long.
    apply Hstep.
  - intros id. split.
    + intros Hid. destruct (Hkeys id Hid) as [Hempty|Hin].
      * rewrite lookup_empty in Hempty. now destruct Hempty.
      * now apply Hregistered.
    + intros [a Hin]. apply elem_of_map_to_list in Hin.
      destruct (Hreg id a Hin) as (u & _ & Hmux).
      rewrite <- Hstep in Hmux. destruct (idps !! id); [eauto | discriminate].
  - intros p Hp. destruct (decide (p = "/authorize")) as [->|Hne]; [now left |].
    right. rewrite lookup_insert_ne in Hp by congruence.
    destruct (Hpatterns p Hp) as [Hempty|(id & Hin & ->)].
    + rewrite lookup_empty in Hempty. now destruct Hempty.
    + exists id. split; [now apply Hregistered | reflexivity].
Qed.

(** X14. [Start] runs once: whatever a first call has done, also when it
    could not bind or could not build the handler, a second call on the
    server it leaves, with any address, changes nothing and reports
    nothing. *)
Theorem Start_runs_once (s s' : Server) (bindAddr bindAddr' : string)
    (errs : list error) :
  Start s bindAddr = Returns (s', errs) ->
  Start s' bindAddr' = Returns (s', []).
Proof.
  intros HStart.
  assert (once s' = true) as Honce; [|unfold Start; now rewrite Honce].
  revert HStart. unfold Start.
  destruct (once s) eqn:Honce; [now intros [= <- _] |].
  destruct (net_Listen "tcp" bindAddr) as [l|err]; [|now intros [= <- _]].
  destruct (URL_eqb _ _); [destruct (url_Parse _) as [u|err] |].
  - destruct (handler _) as [[mux|err]|why]; [destruct (negb _) | |];
      try discriminate; now intros [= <- _].
  - now intros [= <- _].
  - destruct (handler _) as [[mux|err]|why]; [destruct (negb _) | |];
      try discriminate; now intros [= <- _].
Qed.

(** X15. What a first [Start] changes: it reports at most one error and
    touches no field of the server besides the once flag, the listener and
    the base URL.  The listener is set exactly when [net.Listen] succeeds.
    A base URL that the options have set is kept; a zero base URL becomes
    what [url.Parse] makes of [http://<listener address>/], and stays zero,
    with the parse error reported, when that does not parse. *)
Theorem Start_first_call (s s' : Server) (bindAddr : string) (errs : list error) :
  once s = false ->
  Start s bindAddr = Returns (s', errs) ->
  once s' = true
  /\ length errs <= 1
  /\ accessTokenEnc s' = accessTokenEnc s /\ store s' = store s
  /\ authz s' = authz s /\ authn s' = authn s /\ clientMap s' = clientMap s
  /\ initialized s' = initialized s
  /\ match net_Listen "tcp" bindAddr with
     | Err err => errs = [err] /\ listener s' = listener s /\ baseURL s' = baseURL s
     | Ok l =>
         listener s' = Some l
         /\ (baseURL s <> URL_zero -> baseURL s' = baseURL s)
         /\ (baseURL s = URL_zero ->
             match url_Parse ("http://" ++ Listener_Addr l ++ "/") with
             | Ok u => baseURL s' = u
             | Err err => baseURL s' = URL_zero /\ errs = [err]
             end)
     end.
Proof.
  intros Honce. unfold Start. rewrite Honce.
  destruct (net_Listen "tcp" bindAddr) as [l|err];
    [|intros [= <- <-]; cbn; repeat split; lia].
  cbn [set_listener set_once baseURL].
  destruct (URL_eqb (baseURL s) URL_zero) eqn:Hzero.
  - apply URL_eqb_eq in Hzero.
    destruct (url_Parse _) as [u|err].
    + destruct (handler _) as [[mux|err]|why]; [destruct (negb _) | |];
        try discriminate; intros [= <- <-]; cbn; repeat split; lia || congruence.
    + intros [= <- <-]; cbn; repeat split; lia || congruence.
  - assert (baseURL s <> URL_zero) as Hset.
    { intros Heq. apply URL_eqb_eq in Heq. congruence. }
    destruct (handler _) as [[mux|err]|why]; [destruct (negb _) | |];
      try discriminate; intros [= <- <-]; cbn; repeat split; lia || congruence.
Qed.

(** X16. After a bind that succeeds, [Start] serves the handler of the
    server it leaves, on the listener it has bound, and reports what
    [http.Serve] returns unless that text contains [closed]: the error of
    a listener that [Close] has closed is kept from the channel. *)
Theorem Start_reports_serve_error (s s' : Server) (bindAddr : string)
    (errs : list error) (l : Listener) (mux : ServeMux) :
  once s = false ->
  net_Listen "tcp" bindAddr = Ok l ->
  (baseURL s = URL_zero ->
   exists u, url_Parse ("http://" ++ Listener_Addr l ++ "/") = Ok u) ->
  Start s bindAddr = Returns (s', errs) ->
  handler s' = Returns (Ok mux) ->
  errs = if strings_Contains (http_Serve l mux) "closed" then []
         else [externalError (http_Serve l mux)].
Proof.
  intros Honce Hlisten Hparse. unfold Start. rewrite Honce, Hlisten.
  cbn [set_listener set_once baseURL].
  destruct (URL_eqb (baseURL s) URL_zero) eqn:Hzero.
  - apply URL_eqb_eq in Hzero. destruct (Hparse Hzero) as [u ->].
    destruct (handler _) as [[mux0|err]|why] eqn:Hhandler; [| |discriminate].
    + destruct (strings_Contains _ _) eqn:Hclosed; cbn [negb];
        intros [= <- <-] Hmux; rewrite Hhandler in Hmux;
        injection Hmux as <-; now rewrite Hclosed.
    + intros [= <- <-] Hmux. rewrite Hhandler in Hmux. discriminate.
  - destruct (handler _) as [[mux0|err]|why] eqn:Hhandler; [| |discriminate].
    + destruct (strings_Contains _ _) eqn:Hclosed; cbn [negb];
        intros [= <- <-] Hmux; rewrite Hhandler in Hmux;
        injection Hmux as <-; now rewrite Hclosed.
    + intros [= <- <-] Hmux. rewrite Hhandler in Hmux. discriminate.
Qed.

End Handler_further.

(** ** The state store: decoding into a used target *)

(** Decoding the struct that [gob_struct] writes, into any target: the
    fields that were sent are set, the others are left as the target had
    them. *)
Lemma decodeStruct_gob_struct_into (a e : authorizationState) :
  state_fits a ->
  decodeStruct 7 (-1) e (gob_struct a) = Ok (merge_state a e).
Proof.
  destruct a as [c r t sc st idp], e as [c' r' t' sc' st' idp'].
  intros (Hc & Hr & Ht & Hsc & Hscs & Hst & Hidp). cbn in Hc, Hr, Ht, Hsc, Hscs, Hst, Hidp.
  unfold gob_struct, send_field, merge_state.
  cbn [ClientId RedirectURI ResponseType Scope State IdPState].
  destruct c, r, t, sc, st, idp;
    cbn [String.length length Nat.eqb app];
    repeat decode_sent_field; reflexivity.
Qed.

Lemma gob_Decode_gob_Encode_into (a e : authorizationState) (encoded : list byte) :
  gob_Encode a = Ok encoded ->
  gob_Decode encoded e = Ok (merge_state a e).
Proof.
  unfold gob_Encode.
  destruct (tooBig <=? _)%N eqn:Hbig; [discriminate |]. intros Heq.
  assert (encoded = gob_typedefs ++ gob_message id_authorizationState (gob_struct a))%list
    as -> by congruence.
  clear Heq. apply N.leb_gt in Hbig. rewrite length_app in Hbig.
  assert (2 ^ 33 < 2 ^ 64)%N as Hpow by reflexivity.
  change tooBig with (2 ^ 33)%N in Hbig.
  unfold gob_Decode, gob_message. rewrite strip_prefix_app.
  cbv zeta. rewrite decodeUint_encodeUint by (rewrite length_app; lia).
  replace (tooBig <=? _)%N with false
    by (symmetry; apply N.leb_gt; change tooBig with (2 ^ 33)%N; rewrite length_app; lia).
  rewrite N.ltb_irrefl, Nat2N.id, firstn_all, decodeInt_type_id.
  change (id_authorizationState =? id_authorizationState)%Z with true. cbv iota.
  apply decodeStruct_gob_struct_into, gob_struct_fits. lia.
Qed.

(** X17. Different states are never persisted as the same bytes: the
    encodings that [persist] hands to the engine for two states that differ
    in some field differ. *)
Theorem gob_Encode_injective (a b : authorizationState) (x y : list byte) :
  a <> b ->
  gob_Encode a = Ok x ->
  gob_Encode b = Ok y ->
  x <> y.
Proof.
  intros Hne Ha Hb Heq. subst y.
  apply gob_Decode_gob_Encode in Ha, Hb. congruence.
Qed.

Section StateStorage_further.
Context `{StateKeeper}.

(** X18. [restore] does not clear its target: with an engine that returns
    what was persisted, restoring a persisted state into a target that is
    already in use sets the fields that are non-empty in the stored state
    and leaves every other field of the target as it was, because gob sends
    no empty field. *)
Theorem restore_into_used_target_keeps_fields (store0 store1 : stateStorage)
    (key : string) (s e : authorizationState) :
  StateKeeper_faithful ->
  persist store0 key s = (store1, None) ->
  exists store2,
    restore store1 key e = (store2, merge_state s e, None).
Proof.
  intros Hfaithful. unfold persist.
  destruct (gob_Encode s) as [encoded|err] eqn:Hencode; [|discriminate].
  destruct (Persist _ _ _ _) as [engine1 err] eqn:Hpersist.
  intros [= <- ->].
  destruct (Hfaithful _ _ _ _ _ Hpersist) as [engine2 Hrestore].
  unfold restore. cbn [engine maxLifetime]. rewrite Hrestore.
  rewrite list_byte_of_string_of_list_byte,
    (gob_Decode_gob_Encode_into s e encoded Hencode).
  eauto.
Qed.

End StateStorage_further.

(** * The model on the examples *)

Local Open Scope string_scope.

#[local] Existing Instance example_json.
#[local] Existing Instance example_net_url.
#[local] Existing Instance example_parts.
#[local] Existing Instance example_rand.
#[local] Existing Instance example_net_http.

(** ** The Google adapter on the example callbacks *)

Lemma AuthnCallback_missing_code_is_denial_witness :
  AuthnCallback (example_idp unreachable_client) callback_without_code
  = Returns ("ref1", None, None).
Proof.
  apply (AuthnCallback_missing_code_is_denial
           (example_idp unreachable_client) callback_without_code
           [callback_state] callback_stateData);
    vm_compute; reflexivity.
Defined.

(** C6 as stated fails: the token endpoint answers 500, or 200 with a body
    that is no JSON, and the adapter returns a nil error. *)
Lemma malformed_response_returns_nil_error :
  malformed_response (mkResponse 500 (list_byte_of_string "Internal Server Error"))
  /\ AuthnCallback (example_idp (answering_client 500 "Internal Server Error"))
       callback_with_code
     = Returns ("ref1", None, None)
  /\ malformed_response (mkResponse 200 (list_byte_of_string "<html>"))
  /\ AuthnCallback (example_idp (answering_client 200 "<html>")) callback_with_code
     = Returns ("ref1", None, None).
Proof.
  repeat split; try (vm_compute; reflexivity).
  - left. discriminate.
  - right. left. eexists. vm_compute. reflexivity.
Qed.

Lemma AuthnCallback_malformed_response_is_denial_witness :
  AuthnCallback (example_idp (answering_client 500 "Internal Server Error"))
    callback_with_code
  = Returns ("ref1", None, None)
  /\ (forall err,
        (exists ref user,
            AuthnCallback (example_idp unreachable_client) callback_with_code
            = Returns (ref, user, Some err))
        <-> err = externalError "dial tcp: i/o timeout").
Proof.
  split.
  - apply (proj1 (AuthnCallback_malformed_response_is_denial
                    (example_idp (answering_client 500 "Internal Server Error"))
                    callback_with_code [callback_state] ["4/P7q7W91"] callback_stateData
                    eq_refl eq_refl eq_refl)
             (mkResponse 500 (list_byte_of_string "Internal Server Error")));
      [reflexivity | left; discriminate].
  - intros err.
    rewrite (proj2 (AuthnCallback_malformed_response_is_denial
                      (example_idp unreachable_client)
                      callback_with_code [callback_state] ["4/P7q7W91"]
                      callback_stateData eq_refl eq_refl eq_refl) err).
    split; [now intros [= <-] | now intros ->].
Defined.

(** C1 as stated fails: the id token that the token endpoint returns has an
    empty signature segment, which no check against any key accepts, and the
    adapter returns the user that its claims name. *)
Lemma unsigned_id_token_yields_user :
  Unmarshal_googleIDPResponseData (list_byte_of_string forged_body)
  = Ok (mkGoogleIDPResponseData "" "" 0 forged_id_token)
  /\ strings_Split forged_id_token "." = ["e30"; "eyJzdWIiOiJtYWxsb3J5In0"; ""]
  /\ signature_present forged_id_token = false
  /\ AuthnCallback (example_idp (answering_client 200 forged_body)) callback_with_code
     = Returns ("ref1", Some (mkUser "mallory" ["CDE_PLUS"]), None).
Proof. repeat split; vm_compute; reflexivity. Qed.

Lemma AuthnCallback_user_from_claims_segment_witness :
  AuthnCallback (example_idp (answering_client 200 forged_body)) callback_with_code
  = Returns ("ref1", Some (mkUser "mallory" ["CDE_PLUS"]), None).
Proof.
  etransitivity.
  - apply (AuthnCallback_user_from_claims_segment
             (example_idp (answering_client 200 forged_body)) callback_with_code
             [callback_state] ["4/P7q7W91"] callback_stateData
             (mkResponse 200 (list_byte_of_string forged_body))
             (mkGoogleIDPResponseData "" "" 0 forged_id_token)
             "e30" "eyJzdWIiOiJtYWxsb3J5In0" "");
      vm_compute; reflexivity.
  - vm_compute. reflexivity.
Defined.



(** ** The server on the examples *)

Lemma option_after_New_fails_witness :
  exists s w' err,
    New [] example_world = (Ok s, w')
    /\ IdP (H := example_parts) "late" "someIdP" s = (s, Some err).
Proof.
  destruct (New [] example_world) as [[s|e] w'] eqn:HNew;
    [|vm_compute in HNew; discriminate].
  destruct (option_after_New_fails [] example_world w' s
              (IdP (H := example_parts) "late" "someIdP")
              HNew (option_IdP _ _)) as [err Herr].
  exists s, w', err. split; [reflexivity | exact Herr].
Defined.


(** C7 as stated fails: the handler of the IdP [google-oic] is registered
    under [/authorize/google-oic], with the URL of that path; nothing is
    registered under [/callback/google-oic]. *)
Lemma nothing_registered_under_callback :
  exists mux,
    handler example_server = Returns (Ok mux)
    /\ mux !! "/callback/google-oic" = None
    /\ mux !! "/authorize/google-oic"
       = Some (Handler_idp
                 (mkIdpHandler "googleIDP" None
                    (mkURL "http" "127.0.0.1:8080" "/authorize/google-oic" "")
                    None None)).
Proof. eexists. repeat split; reflexivity. Qed.

Lemma handler_registers_authorize_paths_witness :
  (exists mux,
     handler example_server = Returns (Ok mux)
     /\ forall id a, authn example_server !! id = Some a ->
          exists u, URL_Parse (baseURL example_server) ("authorize/" ++ id) = Ok u
            /\ mux !! ("/authorize/" ++ id)
               = Some (Handler_idp
                         (mkIdpHandler a (store example_server) u (authz example_server)
                            (accessTokenEnc example_server))))
  /\ (exists id' a' err',
        authn two_idp_server !! id' = Some a'
        /\ URL_Parse (baseURL two_idp_server) ("authorize/" ++ id') = Err err'
        /\ handler two_idp_server = Returns (Err err')).
Proof.
  split.
  - apply (proj1 (handler_registers_authorize_paths example_server)).
    intros id a Hin. unfold example_server in Hin. cbn [authn] in Hin.
    apply lookup_singleton_Some in Hin as [<- <-].
    eexists. vm_compute. reflexivity.
  - apply (proj2 (handler_registers_authorize_paths two_idp_server)
             "bad.id" "otherIDP"
             (externalError "parse: not a reference of the examples"));
      reflexivity.
Defined.

(** With one reference that does not parse, the IdP whose reference does
    parse is not registered either: there is no mux. *)
Example handler_with_one_bad_reference :
  authn two_idp_server !! "google-oic" = Some "googleIDP"
  /\ URL_Parse (baseURL two_idp_server) ("authorize/" ++ "google-oic")
     = Ok (mkURL "http" "127.0.0.1:8080" "/authorize/google-oic" "")
  /\ handler two_idp_server
     = Returns (Err (externalError "parse: not a reference of the examples")).
Proof. repeat split; reflexivity. Qed.



Lemma Close_before_listening_panics_witness :
  exists s w',
    New [] example_world = (Ok s, w')
    /\ Close s = Panics "invalid memory address or nil pointer dereference"
    /\ (forall err, net_Listen "tcp" "127.0.0.1:80" = Err err ->
          exists s', Start s "127.0.0.1:80" = Returns (s', [err])
            /\ Close s' = Panics "invalid memory address or nil pointer dereference")
    /\ (forall l, net_Listen "tcp" "127.0.0.1:80" = Ok l ->
          exists s' errs, Start s "127.0.0.1:80" = Returns (s', errs)
            /\ Close s' = Returns (Listener_Close l)).
Proof.
  destruct (New [] example_world) as [[s|e] w'] eqn:HNew;
    [|vm_compute in HNew; discriminate].
  exists s, w'. split; [reflexivity |].
  apply (Close_before_listening_panics [] example_world w' s "127.0.0.1:80").
  - constructor.
  - exact HNew.
Defined.

(** On the examples: closing the server that [New] returns panics, a bind
    that fails leaves it so, and after a bind that succeeds [Close]
    returns. *)
Example Close_on_the_example_host :
  let s := mkServer URL_zero None
             (Some (map (fun i => byte_N (7 + N.of_nat i)) (seq 0 16), 36000%Z, "goauth2"))
             (Some "transientMap") (Some "emptyScopeSet")
             (<["anonymous" := "anonymousIdP"]> ∅) None false true in
  exists s1 s2,
    Close s = Panics "invalid memory address or nil pointer dereference"
    /\ Start s "127.0.0.1:80"
       = Returns (s1, [externalError "listen tcp: bind: address already in use"])
    /\ Close s1 = Panics "invalid memory address or nil pointer dereference"
    /\ Start s "127.0.0.1:8080" = Returns (s2, [])
    /\ Close s2 = Returns None.
Proof. eexists _, _. repeat split; reflexivity. Qed.

Lemma example_StateKeeper_faithful : StateKeeper_faithful (H := example_StateKeeper).
Proof.
  intros e key value lifetime e' [= <-]. exists (<[key := value]> e).
  cbn. now rewrite lookup_insert_eq.
Qed.

Lemma restore_persist_witness :
  exists store2,
    restore (H := example_StateKeeper)
      (persist (H := example_StateKeeper) (newStateStorage ∅ 300) "ref1" example_state).1
      "ref1" authorizationState_zero
    = (store2, example_state, None).
Proof.
  apply (restore_persist (H := example_StateKeeper) (newStateStorage ∅ 300) _ "ref1"
           example_state example_StateKeeper_faithful).
  vm_compute. reflexivity.
Defined.

(** The target matters: gob does not send the empty [State], so a target
    that already holds a [State] keeps it. *)
Example restore_into_used_target :
  (restore (H := example_StateKeeper)
     (persist (H := example_StateKeeper) (newStateStorage ∅ 300) "ref1" example_state).1
     "ref1"
     (mkAuthorizationState "" "" "" [] "left over" [])).1.2
  = mkAuthorizationState "app1" "https://app1/cb" "token" ["read"; "write"]
      "left over" [].
Proof. vm_compute. reflexivity. Qed.

(** ** Further properties on the examples *)

Lemma AuthnCallback_unusable_state_witness :
  AuthnCallback (example_idp unreachable_client) callback_without_state
  = Returns ("", None, None).
Proof.
  apply (AuthnCallback_unusable_state (example_idp unreachable_client)
           callback_without_state).
  left. vm_compute. reflexivity.
Defined.

Lemma token_request_after_redirect_witness :
  exists stateData,
    Values_Get stateData "ref" = "ref1"
    /\ AuthnCallback (example_idp unreachable_client) callback_with_code
       = after_token_response stateData
           (PostForm unreachable_client googleTokenURL
              [("code", ["4/P7q7W91"]); ("client_id", ["client-1"]);
               ("client_secret", ["secret-1"]);
               ("redirect_uri", ["https://auth.example/authorize/google-oic"]);
               ("grant_type", ["authorization_code"])]).
Proof.
  apply (token_request_after_redirect
           (example_idp unreachable_client) callback_URL
           (mkURL "https" "accounts.google.com" "/o/oauth2/v2/auth"
              (Values_Encode
                 (Values_Set
                    (Values_Set
                       (Values_Set
                          (Values_Set (Values_Set [] "client_id" "client-1")
                             "response_type" "code")
                          "scope" "openid email")
                       "redirect_uri" "https://auth.example/authorize/google-oic")
                    "state"
                    (Values_Encode
                       (Values_Set (Values_Set [] "ref" "ref1") "redirect_uri"
                          "https://auth.example/authorize/google-oic")))))
           "ref1" callback_with_code ["4/P7q7W91"]).
  - vm_compute. reflexivity.
  - vm_compute. reflexivity.
  - vm_compute. reflexivity.
Defined.

Lemma AuthnCallback_user_or_error_witness :
  exists usr,
    AuthnCallback (example_idp (answering_client 200 forged_body)) callback_with_code
    = Returns ("ref1", Some usr, None)
    /\ Data usr = ["CDE_PLUS"].
Proof.
  exists (mkUser "mallory" ["CDE_PLUS"]).
  assert (AuthnCallback (example_idp (answering_client 200 forged_body))
            callback_with_code
          = Returns ("ref1", Some (mkUser "mallory" ["CDE_PLUS"]), None)) as Hcallback
    by (vm_compute; reflexivity).
  split; [exact Hcallback |].
  apply (proj2 (AuthnCallback_user_or_error _ _ _ _ _ Hcallback)
           (mkUser "mallory" ["CDE_PLUS"]) eq_refl).
Defined.

Lemma AuthnCallback_asks_token_URL_only_witness :
  AuthnCallback (mkGoogleIDP "client-1" "secret-1"
                   (client_at googleTokenURL 200 forged_body)) callback_with_code
  = AuthnCallback (mkGoogleIDP "client-1" "secret-1"
                     (answering_client 200 forged_body)) callback_with_code.
Proof.
  apply (AuthnCallback_asks_token_URL_only "client-1" "secret-1"
           (client_at googleTokenURL 200 forged_body)
           (answering_client 200 forged_body) callback_with_code).
  intros form. reflexivity.
Defined.

Lemma AuthnCallback_illegal_claims_segment_witness :
  AuthnCallback (H0 := padded_json)
    (example_idp (answering_client 200 padded_body)) callback_with_code
  = Returns ("ref1", None, None).
Proof.
  etransitivity.
  - apply (AuthnCallback_illegal_claims_segment (H0 := padded_json)
             (example_idp (answering_client 200 padded_body)) callback_with_code
             [callback_state] ["4/P7q7W91"] callback_stateData
             (mkResponse 200 (list_byte_of_string padded_body))
             (mkGoogleIDPResponseData "" "" 0 padded_id_token)
             "e30" "eyJzdWIiOiJtYWxsb3J5In0=" "");
      vm_compute; reflexivity.
  - vm_compute. reflexivity.
Defined.

Lemma New_package_options_succeed_witness :
  exists s w',
    New [BaseURL (mkURL "https" "auth.example" "/" "");
         IdP (H := example_parts) "google-oic" "googleIDP"] example_world
    = (Ok s, w')
    /\ initialized s = true /\ listener s = None /\ once s = false.
Proof.
  apply (New_package_options_succeed
           [BaseURL (mkURL "https" "auth.example" "/" "");
            IdP (H := example_parts) "google-oic" "googleIDP"] example_world).
  repeat constructor.
Defined.

Lemma New_last_option_decides_witness :
  (exists s w',
     New ([IdP (H := example_parts) "google-oic" "first"]
          ++ [IdP (H := example_parts) "google-oic" "second"])%list example_world
     = (Ok s, w')
     /\ authn s !! "google-oic" = Some "second")
  /\ (exists s w',
        New ([Storage (H := example_parts) (Some "redis")]
             ++ [Storage (H := example_parts) None])%list example_world
        = (Ok s, w')
        /\ store s = Some make_transientMap).
Proof.
  split.
  - destruct (New _ example_world) as [[s|e] w'] eqn:HNew;
      [|vm_compute in HNew; discriminate].
    exists s, w'. split; [reflexivity |].
    apply (New_last_option_decides
             [IdP (H := example_parts) "google-oic" "first"]
             (IdP (H := example_parts) "google-oic" "second")
             example_world w' s);
      [repeat constructor | exact HNew | reflexivity].
  - destruct (New _ example_world) as [[s|e] w'] eqn:HNew;
      [|vm_compute in HNew; discriminate].
    exists s, w'. split; [reflexivity |].
    apply (proj1 (proj2 (New_last_option_decides
                           [Storage (H := example_parts) (Some "redis")]
                           (Storage (H := example_parts) None)
                           example_world w' s
                           ltac:(repeat constructor) HNew))
             None eq_refl).
Defined.

Lemma New_first_failing_option_witness :
  New ([BaseURL (mkURL "https" "auth.example" "/" "")]
       ++ refusing_option :: [IdP (H := example_parts) "google-oic" "googleIDP"])%list
    example_world
  = (Err (errorString "refused"), example_world).
Proof.
  apply (New_first_failing_option
           [BaseURL (mkURL "https" "auth.example" "/" "")]
           [IdP (H := example_parts) "google-oic" "googleIDP"]
           refusing_option example_world
           (mkServer (mkURL "https" "auth.example" "/" "") None None None None ∅ None
              false false)
           (mkServer (mkURL "https" "auth.example" "/" "") None None None None ∅ None
              false false));
    reflexivity.
Defined.

Lemma New_warns_for_each_default_witness :
  exists s,
    New [AccessTokenConfig [x01; x02] 600 "auth.example";
         IdP (H := example_parts) "google-oic" "googleIDP"] example_world
    = (Ok s,
       mkWorld (7%N : rand_Source)
         ["WARN: Using in-memory transient storage"; "WARN: using empty scope set"]).
Proof.
  destruct (New_warns_for_each_default
              [AccessTokenConfig [x01; x02] 600 "auth.example";
               IdP (H := example_parts) "google-oic" "googleIDP"] example_world
              (mkServer URL_zero None
                 (Some (newAccessTokenEncoder [x01; x02] 600 "auth.example")) None None
                 {["google-oic" := "googleIDP"]} None false false) eq_refl)
    as [s HNew].
  exists s. rewrite HNew. f_equal.
Defined.

Lemma handler_mux_contents_witness :
  exists mux idps,
    handler example_server = Returns (Ok mux)
    /\ mux !! "/authorize"
       = Some (Handler_authorization
                 (mkAuthorizationHandler (clientMap example_server)
                    (authz example_server) idps))
    /\ (forall id, Handler_idp <$> idps !! id = mux !! ("/authorize/" ++ id))
    /\ (forall id, is_Some (idps !! id) <-> is_Some (authn example_server !! id))
    /\ (forall p, is_Some (mux !! p) ->
          p = "/authorize"
          \/ exists id, is_Some (authn example_server !! id) /\ p = "/authorize/" ++ id).
Proof.
  assert (exists mux, handler example_server = Returns (Ok mux)) as [mux Hhandler]
    by (eexists; reflexivity).
  destruct (handler_mux_contents example_server mux Hhandler) as (idps & Hcontents).
  exists mux, idps. split; [exact Hhandler | exact Hcontents].
Defined.

Lemma Start_runs_once_witness :
  exists s',
    Start example_server "127.0.0.1:80"
    = Returns (s', [externalError "listen tcp: bind: address already in use"])
    /\ Start s' "127.0.0.1:8080" = Returns (s', []).
Proof.
  eexists. split; [reflexivity |].
  apply (Start_runs_once example_server _ "127.0.0.1:80" "127.0.0.1:8080"
           [externalError "listen tcp: bind: address already in use"]).
  reflexivity.
Defined.

Lemma Start_first_call_witness :
  exists s' errs,
    Start unstarted_server "127.0.0.1:8080" = Returns (s', errs)
    /\ once s' = true /\ length errs <= 1
    /\ authn s' = authn unstarted_server
    /\ listener s' = Some "127.0.0.1:8080"
    /\ baseURL s' = mkURL "http" "127.0.0.1:8080" "/" "".
Proof.
  destruct (Start unstarted_server "127.0.0.1:8080") as [[s' errs]|why] eqn:HStart;
    [|vm_compute in HStart; discriminate].
  destruct (Start_first_call unstarted_server s' "127.0.0.1:8080" errs eq_refl HStart)
    as (Honce & Herrs & _ & _ & _ & Hauthn & _ & _ & Hlisten).
  change (net_Listen "tcp" "127.0.0.1:8080") with (@Ok string "127.0.0.1:8080") in Hlisten.
  destruct Hlisten as (Hlistener & _ & Hbase).
  exists s', errs. repeat split; try assumption.
  exact (Hbase eq_refl).
Defined.

Lemma Start_reports_serve_error_witness :
  exists s' errs mux,
    Start unstarted_server "127.0.0.1:8080" = Returns (s', errs)
    /\ handler s' = Returns (Ok mux)
    /\ errs = [].
Proof.
  assert (exists s' errs mux,
             Start unstarted_server "127.0.0.1:8080" = Returns (s', errs)
             /\ handler s' = Returns (Ok mux)) as (s' & errs & mux & HStart & Hhandler)
    by (eexists _, _, _; split; reflexivity).
  exists s', errs, mux. split; [exact HStart |]. split; [exact Hhandler |].
  rewrite (Start_reports_serve_error unstarted_server s' "127.0.0.1:8080" errs
             "127.0.0.1:8080" mux eq_refl eq_refl);
    [reflexivity | intros _; eexists; reflexivity | exact HStart | exact Hhandler].
Defined.

Lemma gob_Encode_injective_witness :
  exists x y,
    gob_Encode example_state = Ok x /\ gob_Encode used_target = Ok y /\ x <> y.
Proof.
  destruct (gob_Encode example_state) as [x|e] eqn:Hx;
    [|vm_compute in Hx; discriminate].
  destruct (gob_Encode used_target) as [y|e] eqn:Hy;
    [|vm_compute in Hy; discriminate].
  exists x, y. split; [reflexivity |]. split; [reflexivity |].
  apply (gob_Encode_injective example_state used_target x y);
    [discriminate | exact Hx | exact Hy].
Defined.

Lemma restore_into_used_target_keeps_fields_witness :
  exists store2,
    restore (H := example_StateKeeper)
      (persist (H := example_StateKeeper) (newStateStorage ∅ 300) "ref1" example_state).1
      "ref1" used_target
    = (store2,
       mkAuthorizationState "app1" "https://app1/cb" "token" ["read"; "write"]
         "left over" [],
       None).
Proof.
  apply (restore_into_used_target_keeps_fields (H := example_StateKeeper)
           (newStateStorage ∅ 300) _ "ref1" example_state used_target
           example_StateKeeper_faithful).
  vm_compute. reflexivity.
Defined.
